(** * The analyze route of the YouTube strategy agent

    A shallow embedding of [src/app/api/analyze/route.ts] and the properties
    its specification states about it, followed by further properties of
    the route and of two helpers of the page ([src/app/page.tsx]) that
    display or guard what the route handles.

    Conventions of the embedding.
    - A JavaScript string is a sequence of UTF-16 code units.  The development
      covers the code units U+0000..U+00FF (ASCII and Latin-1): a string is a
      Rocq [string], one [ascii] per code unit.
    - A JavaScript number is an IEEE double.  Counts and parsed integers are
      [nat] and [N], ages are exact rationals ([Q]) and scores are real
      numbers ([R]); rounding is not modelled.
    - [Map] objects are association lists in insertion order, which is the
      order in which JavaScript iterates them.
    - [Array.prototype.sort] is stable; it is modelled by a stable insertion
      sort driven by the same comparator.
    - The search provider is a function from queries to results, and the
      handler records the queries it sends.  [POST] is the handler on a body
      of the declared request type; [POST_request] is the handler on whatever
      the request carries, including the bodies that make it throw before it
      sends a query. *)

From Stdlib Require Import Bool Arith NArith ZArith QArith Lia List.
From Stdlib Require Import Sorted Permutation.
From Stdlib Require Import Ascii String DecimalString.
From Stdlib Require Import Reals Qreals Lra.
From Stdlib Require DecimalNat.
Import ListNotations.

Local Close Scope R_scope.
Local Close Scope Q_scope.
Local Open Scope nat_scope.
Local Open Scope string_scope.
Local Open Scope list_scope.

(** ** Characters and strings *)

Module Js.

Definition code (c : ascii) : N := N_of_ascii c.

Definition in_range (lo hi : N) (c : ascii) : bool :=
  (lo <=? code c)%N && (code c <=? hi)%N.

(** The regular-expression classes [\d], [a-z], [A-Z], [\s] and [\w]. *)
Definition is_digit (c : ascii) : bool := in_range 48 57 c.
Definition is_lower (c : ascii) : bool := in_range 97 122 c.
Definition is_upper (c : ascii) : bool := in_range 65 90 c.

Definition is_space (c : ascii) : bool :=
  in_range 9 13 c || (code c =? 32)%N || (code c =? 160)%N.

Definition is_word (c : ascii) : bool :=
  is_lower c || is_upper c || is_digit c || (code c =? 95)%N.

(** The class [a-z0-9] that survives [tokenize]. *)
Definition is_alnum (c : ascii) : bool := is_lower c || is_digit c.

(** [String.prototype.toLowerCase], per code unit: A-Z, and the Latin-1
    capitals U+00C0..U+00DE except the multiplication sign U+00D7. *)
Definition lower_char (c : ascii) : ascii :=
  if is_upper c || in_range 192 214 c || in_range 216 222 c
  then ascii_of_N (code c + 32) else c.

(** [toUpperCase] on a single [\w] character (the only place the route
    upper-cases anything): a-z move to A-Z, digits and [_] stay. *)
Definition upper_char (c : ascii) : ascii :=
  if is_lower c then ascii_of_N (code c - 32) else c.

Fixpoint map (f : ascii -> ascii) (s : string) : string :=
  match s with
  | EmptyString => EmptyString
  | String c r => String (f c) (map f r)
  end.

Fixpoint forallb (p : ascii -> bool) (s : string) : bool :=
  match s with
  | EmptyString => true
  | String c r => p c && forallb p r
  end.

Definition toLowerCase (s : string) : string := map lower_char s.

(** [s.includes(sub)]. *)
Fixpoint includes (s sub : string) : bool :=
  String.prefix sub s ||
  match s with
  | EmptyString => false
  | String _ r => includes r sub
  end.

Fixpoint drop (n : nat) (s : string) : string :=
  match n, s with
  | O, _ => s
  | S _, EmptyString => EmptyString
  | S k, String _ r => drop k r
  end.

(** The longest prefix of [s] in class [p], and what follows it: one greedy
    quantifier [p+] / [p*]. *)
Fixpoint span (p : ascii -> bool) (s : string) : string * string :=
  match s with
  | EmptyString => (EmptyString, EmptyString)
  | String c r =>
      if p c then let (a, b) := span p r in (String c a, b)
      else (EmptyString, s)
  end.

(** [s.split(/\s+/)].  [cur] is the piece being collected: [Some w] while
    inside a piece, [None] right after a separator run.  A leading or a
    trailing run of white space yields an empty first or last piece, and the
    empty string yields one empty piece, as in JavaScript. *)
Fixpoint split_from (cur : option string) (s : string) : list string :=
  match s with
  | EmptyString => [match cur with Some w => w | None => EmptyString end]
  | String c r =>
      if is_space c then
        match cur with
        | Some w => w :: split_from None r
        | None => split_from None r
        end
      else
        split_from
          (Some (match cur with
                 | Some w => (w ++ String c EmptyString)%string
                 | None => String c EmptyString
                 end)) r
  end.

Definition split_ws (s : string) : list string := split_from (Some EmptyString) s.

(** [s.trim()]. *)
Fixpoint trim_start (s : string) : string :=
  match s with
  | EmptyString => EmptyString
  | String c r => if is_space c then trim_start r else s
  end.

Fixpoint trim_end (s : string) : string :=
  match s with
  | EmptyString => EmptyString
  | String c r =>
      match trim_end r with
      | EmptyString => if is_space c then EmptyString else String c EmptyString
      | r' => String c r'
      end
  end.

Definition trim (s : string) : string := trim_end (trim_start s).

(** Truthiness of a string: [!s] is true exactly for the empty string. *)
Definition truthy (s : string) : bool :=
  match s with EmptyString => false | _ => true end.

End Js.

(** ** Tokenizer *)

Definition STOP_WORDS : list string :=
  [ "the"; "a"; "an"; "and"; "or"; "but"; "if"; "in"; "on"; "for"; "with";
    "of"; "to"; "by"; "from"; "about"; "is"; "are"; "was"; "were"; "be";
    "this"; "that"; "those"; "these"; "you"; "your"; "into"; "how"; "what";
    "why"; "when"; "where"; "can"; "should"; "will"; "new"; "latest"; "best";
    "top"; "2024"; "2025"; "video"; "official" ].

Definition STOP_WORDS_has (word : string) : bool :=
  existsb (String.eqb word) STOP_WORDS.

(** [.replace(/[^a-z0-9\s]/g, " ")] *)
Definition strip_char (c : ascii) : ascii :=
  if Js.is_alnum c || Js.is_space c then c else " "%char.

Definition keep_word (word : string) : bool :=
  Js.truthy word && negb (STOP_WORDS_has word) && (2 <? String.length word)%nat.

Definition tokenize (text : string) : list string :=
  filter keep_word (Js.split_ws (Js.map strip_char (Js.toLowerCase text))).

(** ** Insertion-ordered maps

    [new Map()] with string keys: [set] on a key that is present replaces the
    value in place, [set] on a fresh key appends, and iteration follows
    insertion order. *)

Module JsMap.
Section WithValue.
Context {V : Type}.

Definition t := list (string * V).

Fixpoint get (k : string) (m : t) : option V :=
  match m with
  | [] => None
  | (k', v) :: r => if String.eqb k k' then Some v else get k r
  end.

Definition has (k : string) (m : t) : bool :=
  match get k m with Some _ => true | None => false end.

Fixpoint set (k : string) (v : V) (m : t) : t :=
  match m with
  | [] => [(k, v)]
  | (k', v') :: r =>
      if String.eqb k k' then (k, v) :: r else (k', v') :: set k v r
  end.

Definition keys (m : t) : list string := List.map fst m.
Definition values (m : t) : list V := List.map snd m.
End WithValue.
Arguments t : clear implicits.
End JsMap.

(** ** Stable sort

    [swap x y] says that the comparator returns a positive number on
    [(x, y)], that is, [y] has to come before [x].  An element is inserted in
    front of the already sorted elements that followed it in the array and
    moves right only past those it has to come after, so equal elements keep
    their order. *)

Section StableSort.
Context {A : Type} (swap : A -> A -> bool).

Fixpoint insert (x : A) (l : list A) : list A :=
  match l with
  | [] => [x]
  | y :: r => if swap x y then y :: insert x r else x :: l
  end.

Definition sort (l : list A) : list A := fold_right insert [] l.

(** [a] may stand before [b]. *)
Definition in_order (a b : A) : Prop := swap a b = false.
End StableSort.

(** ** Keyword aggregation *)

(** [freq.set(word, (freq.get(word) ?? 0) + 1)] *)
Definition bump (freq : JsMap.t nat) (word : string) : JsMap.t nat :=
  JsMap.set word
    (match JsMap.get word freq with Some n => n | None => 0 end + 1) freq.

Definition count_text (freq : JsMap.t nat) (text : string) : JsMap.t nat :=
  fold_left bump (tokenize text) freq.

(** The comparator [(a, b) => b[1] - a[1]] is positive when [b] counts more. *)
Definition by_count_desc (a b : string * nat) : bool :=
  (0 <? Z.of_nat (snd b) - Z.of_nat (snd a))%Z.

Definition aggregateKeywords (texts : list string) : list string :=
  let freq := fold_left count_text texts [] in
  List.map fst (firstn 10 (sort by_count_desc freq)).

(** ** Age descriptors *)

Definition timeUnitToMinutes (unit : string) : Q :=
  if String.eqb unit "second" then (1 / 60)%Q
  else if String.eqb unit "minute" then 1%Q
  else if String.eqb unit "hour" then 60%Q
  else if String.eqb unit "day" then (60 * 24)%Q
  else if String.eqb unit "week" then (60 * 24 * 7)%Q
  else if String.eqb unit "month" then (60 * 24 * 30)%Q
  else if String.eqb unit "year" then (60 * 24 * 365)%Q
  else (60 * 24)%Q.

Definition UNITS : list string :=
  [ "second"; "minute"; "hour"; "day"; "week"; "month"; "year" ].

(** The alternation [(second|minute|hour|day|week|month|year)] at the start
    of [s]: the first alternative that is a prefix. *)
Definition match_unit (s : string) : option string :=
  find (fun u => String.prefix u s) UNITS.

(** [(\d+)\s+(second|...|year)] anchored at the start of [s].  The classes
    [\d], [\s] and the first letters of the units are pairwise disjoint, so
    the greedy runs are the only way to match and backtracking never finds
    another one. *)
Definition match_age_at (s : string) : option (string * string) :=
  let (digits, r1) := Js.span Js.is_digit s in
  let (spaces, r2) := Js.span Js.is_space r1 in
  if Js.truthy digits && Js.truthy spaces then
    match match_unit r2 with
    | Some unit => Some (digits, unit)
    | None => None
    end
  else None.

(** [streamed\s+(\d+)\s+(second|...|year)] anchored at the start of [s]. *)
Definition match_streamed_at (s : string) : option (string * string) :=
  if String.prefix "streamed" s then
    let (spaces, r) := Js.span Js.is_space (Js.drop 8 s) in
    if Js.truthy spaces then match_age_at r else None
  else None.

(** [s.match(re)] for a pattern without the global flag: the match at the
    leftmost position where the anchored pattern succeeds. *)
Fixpoint search {A : Type} (at_start : string -> option A) (s : string)
  : option A :=
  match at_start s with
  | Some x => Some x
  | None =>
      match s with
      | EmptyString => None
      | String _ r => search at_start r
      end
  end.

(** [Number.parseInt(digits, 10)] on a run of decimal digits. *)
Fixpoint parseInt_from (acc : N) (digits : string) : N :=
  match digits with
  | EmptyString => acc
  | String c r => parseInt_from (acc * 10 + (Js.code c - 48))%N r
  end.

Definition parseInt (digits : string) : N := parseInt_from 0%N digits.

Definition age_of (m : string * string) : Q :=
  (inject_Z (Z.of_N (parseInt (fst m))) * timeUnitToMinutes (snd m))%Q.

Definition parseAgeMinutes (ago : option string) : Q :=
  match ago with
  | None => (60 * 24 * 365)%Q
  | Some ago =>
      if negb (Js.truthy ago) then (60 * 24 * 365)%Q
      else
        let normalized := Js.toLowerCase ago in
        match search match_age_at normalized with
        | Some m => age_of m
        | None =>
            if Js.includes normalized "streamed"
               || Js.includes normalized "premiered"
            then
              match search match_streamed_at normalized with
              | Some m => age_of m
              | None => (60 * 24 * 365)%Q
              end
            else (60 * 24 * 365)%Q
        end
  end.

(** ** Provider records *)

Module Author.
Record t := { name : option string; url : option string }.
End Author.

(** [VideoSearchResult] of the provider's type declarations, with the fields
    the route reads.  A view count is a natural number. *)
Module Video.
Record t := {
    videoId : option string;
    url : string;
    title : string;
    description : option string;
    image : option string;
    thumbnail : option string;
    ago : option string;
    views : option N;
    author : option Author.t
  }.
End Video.

(** [x ?? d] *)
Definition or_else {A : Type} (x : option A) (d : A) : A :=
  match x with Some a => a | None => d end.

(** ** Scoring *)

Definition log10 (x : R) : R := (ln x / ln 10)%R.

Definition viewScore (video : Video.t) : R :=
  let views := or_else (Video.views video) 0%N in
  (log10 (IZR (Z.of_N views) + 1) / 6)%R.

Definition ageScore (video : Video.t) : R :=
  let ageMinutes := parseAgeMinutes (Video.ago video) in
  exp (- Q2R ageMinutes / (60 * 24 * 21))%R.

Definition video_text (video : Video.t) : string :=
  Js.toLowerCase
    (Video.title video ++ " " ++ or_else (Video.description video) "")%string.

(** [keywords.reduce((acc, keyword) => text.includes(keyword) ? acc + 1 : acc, 0)] *)
Definition matchCount (text : string) (keywords : list string) : nat :=
  fold_left (fun acc keyword => if Js.includes text keyword then acc + 1 else acc)
    keywords 0.

Definition relevance_of (video : Video.t) (keywords : list string) : R :=
  if (0 <? List.length keywords)%nat
  then (INR (matchCount (video_text video) keywords) / INR (List.length keywords))%R
  else 0.3%R.

Module Score.
Record t := { score : R; relevance : R }.
End Score.

Definition scoreVideo (video : Video.t) (keywords : list string) : Score.t :=
  let relevance := relevance_of video keywords in
  let score :=
    (viewScore video * 0.6 + ageScore video * 0.3 + relevance * 0.4)%R in
  {| Score.score := score; Score.relevance := relevance |}.

(** ** Deduplication *)

Definition dedupe_step (map : JsMap.t Video.t) (video : Video.t)
  : JsMap.t Video.t :=
  match Video.videoId video with
  | None => map
  | Some id =>
      if negb (Js.truthy id) then map
      else if negb (JsMap.has id map) then JsMap.set id video map
      else map
  end.

Definition dedupeVideos (videos : list Video.t) : list Video.t :=
  JsMap.values (fold_left dedupe_step videos []).

(** ** Outline *)

Module Segment.
Record t := {
    title : string;
    durationHint : string;
    talkingPoints : list string;
    brollIdeas : list string
  }.
End Segment.

(** [theme.replace(/^\w/, (c) => c.toUpperCase())] *)
Definition capitalize (theme : string) : string :=
  match theme with
  | EmptyString => EmptyString
  | String c r => if Js.is_word c then String (Js.upper_char c) r else theme
  end.

(** Template interpolation of a small array index. *)
Definition show_nat (n : nat) : string := NilEmpty.string_of_uint (Nat.to_uint n).

Definition hookSegment (topic : string) : Segment.t :=
  {| Segment.title := "Hook & Context";
     Segment.durationHint := "0:00 - 0:45";
     Segment.talkingPoints :=
       [ ("Drop an attention-grabbing stat or question that ties " ++ topic
          ++ " to the viewer's everyday stakes.")%string;
         "Position the problem or opportunity in one sentence.";
         "Promise the transformation viewers will get by watching." ];
     Segment.brollIdeas :=
       [ "YouTube analytics dashboard zoom-in";
         "Trending article headlines montage";
         "Fast-cut reaction shots" ] |}.

Definition breakdownSegment (index : nat) (theme : string) : Segment.t :=
  {| Segment.title :=
       ("Breakdown " ++ show_nat (index + 1) ++ ": " ++ capitalize theme)%string;
     Segment.durationHint :=
       ((if (index =? 0)%nat then "0:45" else if (index =? 1)%nat then "2:30" else "4:00")
        ++ " - " ++
        (if (index =? 0)%nat then "2:30" else if (index =? 1)%nat then "4:00" else "5:30"))%string;
     Segment.talkingPoints :=
       [ ("Summarize what top creators are saying about " ++ theme ++ ".")%string;
         "Call out what worked (hooks, pacing, visuals, CTAs).";
         "Explain how your take will evolve or improve that angle." ];
     Segment.brollIdeas :=
       [ "Screen recordings of top videos with animated highlights";
         "Overlay of key statistics or quotes";
         "Relevant product or scenario footage" ] |}.

Definition ctaSegment : Segment.t :=
  {| Segment.title := "Action Plan & CTA";
     Segment.durationHint := "5:30 - 7:00";
     Segment.talkingPoints :=
       [ "Summarize the playbook viewers can replicate.";
         "Share one bonus tip or contrarian insight.";
         "Invite engagement with a specific question or challenge." ];
     Segment.brollIdeas :=
       [ "Clean over-the-shoulder shot of action steps checklist";
         "Call-to-action animation";
         "Satisfied audience reaction visuals" ] |}.

(** [array.forEach((x, index) => segments.push(f index x))] from [index]. *)
Fixpoint forEach_push {A B : Type} (f : nat -> A -> B) (index : nat)
  (l : list A) (segments : list B) : list B :=
  match l with
  | [] => segments
  | x :: r => forEach_push f (S index) r (segments ++ [f index x])
  end.

Definition buildOutline (topic : string) (themes : list string)
  : list Segment.t :=
  let segments := [] ++ [hookSegment topic] in
  let segments := forEach_push breakdownSegment 0 (firstn 3 themes) segments in
  segments ++ [ctaSegment].

(** ** Request handler *)

Module Request.
Record t := {
    topic : option string;
    description : option string;
    audience : option string;
    style : option string;
    duration : option string;
    language : option string
  }.
End Request.

(** [VideoInsight].  The [highlights] strings are display text built with
    locale-dependent number formatting; no property below reads them and the
    record leaves them out. *)
Module Insight.
Record t := {
    id : string;
    title : string;
    url : string;
    thumbnail : string;
    channel : string;
    views : N;
    ago : string;
    description : string;
    score : R;
    relevance : R
  }.
End Insight.

Module Metadata.
Record t := {
    requestedAudience : option string;
    tone : option string;
    durationHint : option string;
    language : option string
  }.
End Metadata.

(** [AnalyzeResponse], with the fields computed from the ranking: the query,
    the themes, the outline, the ranked insights and the echoed metadata.
    The remaining fields (summary, hook ideas, narrative angle, action items,
    SEO block, script) are prose templates over the same [topic], [themes]
    and [insights] and are left out. *)
Module Document.
Record t := {
    query : string;
    keyThemes : list string;
    outline : list Segment.t;
    inspiration : list Insight.t;
    metadata : Metadata.t
  }.
End Document.

(** [NextResponse.json(body, { status })] *)
Inductive Response :=
| Json (doc : Document.t)
| JsonError (status : nat) (error : string).

Definition toInsight (fallbackTokens : list string) (video : Video.t)
  : Insight.t :=
  let s := scoreVideo video fallbackTokens in
  {| Insight.id := or_else (Video.videoId video) (Video.url video);
     Insight.title := Video.title video;
     Insight.url := Video.url video;
     Insight.thumbnail :=
       or_else (Video.thumbnail video) (or_else (Video.image video) "");
     Insight.channel :=
       or_else
         (match Video.author video with
          | Some a => Author.name a
          | None => None
          end) "Unknown";
     Insight.views := or_else (Video.views video) 0%N;
     Insight.ago := or_else (Video.ago video) "Unknown";
     Insight.description := or_else (Video.description video) "";
     Insight.score := Score.score s;
     Insight.relevance := Score.relevance s |}.

(** The comparator [(a, b) => b.score - a.score] is positive when [b] scores
    more. *)
Definition by_score_desc (a b : Insight.t) : bool :=
  if Rlt_dec 0 (Insight.score b - Insight.score a) then true else false.

(** [combinedRaw.map(...).sort(...).slice(0, 12)] *)
Definition rankInsights (combinedRaw : list Video.t)
  (fallbackTokens : list string) : list Insight.t :=
  firstn 12 (sort by_score_desc (List.map (toInsight fallbackTokens) combinedRaw)).

Definition insight_text (video : Insight.t) : string :=
  (Insight.title video ++ " " ++ Insight.description video)%string.

(** Computations that talk to the provider: the queries sent so far, in
    order, and the result. *)
Definition Logged (A : Type) : Type := list string * A.

Definition ret {A : Type} (a : A) : Logged A := ([], a).

Definition bind {A B : Type} (m : Logged A) (k : A -> Logged B) : Logged B :=
  let (l1, a) := m in
  let (l2, b) := k a in
  (l1 ++ l2, b).

Notation "x <- m ;; k" := (bind m (fun x => k))
  (at level 61, m at next level, right associativity).

Section Handler.
(** The provider's answer to a query: [Some videos], or [None] when the
    promise rejects. *)
Variable yts_search : string -> option (list Video.t).

Definition fetchVideoSet (query : string) : Logged (option (list Video.t)) :=
  ([query], yts_search query).

(** The handler on a parsed request body: the queries it sends and the
    response.  [Promise.all] starts the three searches before any of them is
    awaited; a rejected search is caught by the handler's [catch] and
    answered with status 500. *)
Definition POST (body : Request.t) : Logged Response :=
  match option_map Js.trim (Request.topic body) with
  | None => ret (JsonError 400 "Topic is required")
  | Some topic =>
      if negb (Js.truthy topic) then ret (JsonError 400 "Topic is required")
      else
        let queryTokens :=
          tokenize (topic ++ " " ++ or_else (Request.description body) "")%string in
        let fallbackTokens :=
          if (0 <? List.length queryTokens)%nat then queryTokens
          else tokenize topic in
        primary <- fetchVideoSet topic ;;
        trending <- fetchVideoSet (topic ++ " trending")%string ;;
        expert <- fetchVideoSet ("best " ++ topic)%string ;;
        ret
          match primary, trending, expert with
          | Some primaryResults, Some trendingResults, Some expertResults =>
              let combinedRaw :=
                dedupeVideos (primaryResults ++ trendingResults ++ expertResults) in
              if (List.length combinedRaw =? 0)%nat then
                JsonError 404 "No videos found for the provided topic."
              else
                let insights := rankInsights combinedRaw fallbackTokens in
                let themeKeywords :=
                  aggregateKeywords (List.map insight_text insights) in
                let themes := firstn 5 themeKeywords in
                Json
                  {| Document.query := topic;
                     Document.keyThemes := themes;
                     Document.outline := buildOutline topic themes;
                     Document.inspiration := insights;
                     Document.metadata :=
                       {| Metadata.requestedAudience := Request.audience body;
                          Metadata.tone := Request.style body;
                          Metadata.durationHint := Request.duration body;
                          Metadata.language := Request.language body |} |}
          | _, _, _ =>
              JsonError 500 "Failed to analyze topic. Please try again later."
          end
  end.

(** What the handler finds when it reads the request.
    - [BodyUnparsable]: the body is not JSON, so [request.json()] rejects.
    - [BodyNull]: the body is the JSON value [null], so [body.topic] throws.
    - [BodyBadTopic]: [body.topic] is neither missing nor a string (a
      number, a boolean, an array or an object), so [body.topic?.trim] is not
      a function and the call throws.
    - [BodyBadDescription topic]: [body.topic] is the string [topic] and
      [body.description] is a value that cannot be converted to a string
      (an object with a field [toString], which JSON cannot make a
      function), so the template literal of [queryTokens] throws.  It is
      only evaluated after the topic check.
    - [BodyTyped body]: every other body, read at the declared type
      [AnalyzeRequest].  [Request.topic] is [None] when the field is missing
      or [null], and also when the body is a JSON number, string, boolean or
      array, which has no field [topic]. *)
Inductive RequestBody : Type :=
| BodyUnparsable
| BodyNull
| BodyBadTopic
| BodyBadDescription (topic : string)
| BodyTyped (body : Request.t).

(** The whole handler: what is thrown while the request is read is caught
    by the [catch] and answered with status 500, before any query is sent. *)
Definition POST_request (request : RequestBody) : Logged Response :=
  match request with
  | BodyUnparsable | BodyNull | BodyBadTopic =>
      ret (JsonError 500 "Failed to analyze topic. Please try again later.")
  | BodyBadDescription topic =>
      if negb (Js.truthy (Js.trim topic))
      then ret (JsonError 400 "Topic is required")
      else ret (JsonError 500 "Failed to analyze topic. Please try again later.")
  | BodyTyped body => POST body
  end.
End Handler.

(** ** Notions used to state the properties *)

(** What a token has to look like: only [a-z0-9], at least three characters,
    not a stop word. *)
Definition token_ok (w : string) : Prop :=
  Js.forallb Js.is_alnum w = true /\ 3 <= String.length w /\ ~ In w STOP_WORDS.

(** The distinct elements of a list in order of first occurrence. *)
Fixpoint first_seen (l : list string) : list string :=
  match l with
  | [] => []
  | x :: r => x :: filter (fun y => negb (String.eqb y x)) (first_seen r)
  end.

(** The first occurrence of [a] in [l] comes before any occurrence of [b]. *)
Definition first_before (a b : string) (l : list string) : Prop :=
  exists l1 l2, l = l1 ++ a :: l2 /\ ~ In a l1 /\ ~ In b l1 /\ a <> b.

(** [a] stands somewhere to the left of [b] in [l]. *)
Definition precedes {A : Type} (a b : A) (l : list A) : Prop :=
  exists l1 l2 l3, l = l1 ++ a :: l2 ++ b :: l3.

(** The token stream [aggregateKeywords] counts, and a word's frequency. *)
Definition all_tokens (texts : list string) : list string :=
  flat_map tokenize texts.

Definition frequency (texts : list string) (w : string) : nat :=
  count_occ string_dec (all_tokens texts) w.

(** The frequency table in order of first occurrence, and its stable
    ranking by descending frequency. *)
Definition counted (texts : list string) : list (string * nat) :=
  List.map (fun w => (w, frequency texts w)) (first_seen (all_tokens texts)).

Definition ranked (texts : list string) : list (string * nat) :=
  sort by_count_desc (counted texts).

(** [video] carries the identifier [id]. *)
Definition has_id (id : string) (video : Video.t) : bool :=
  match Video.videoId video with
  | Some i => String.eqb i id
  | None => false
  end.

(** [video] has no identifier: the field is missing or empty. *)
Definition lacks_id (video : Video.t) : bool :=
  match Video.videoId video with
  | Some i => negb (Js.truthy i)
  | None => true
  end.

(** The topic of a request is missing, or empty once trimmed. *)
Definition topic_missing (body : Request.t) : Prop :=
  match Request.topic body with
  | None => True
  | Some t => Js.trim t = ""
  end.

(** The request has a body the handler can read, and no topic in it: the
    topic is missing, or a string that is empty once trimmed. *)
Definition request_topic_blank (request : RequestBody) : Prop :=
  match request with
  | BodyTyped body => topic_missing body
  | BodyBadDescription topic => Js.trim topic = ""
  | BodyUnparsable | BodyNull | BodyBadTopic => False
  end.

(** Reading the request throws: the body is not JSON or is [null], the topic
    is not a string, or the topic is usable and the description cannot be
    converted to a string. *)
Definition request_unreadable (request : RequestBody) : Prop :=
  match request with
  | BodyUnparsable | BodyNull | BodyBadTopic => True
  | BodyBadDescription topic => Js.trim topic <> ""
  | BodyTyped _ => False
  end.

(** Sample data for the worked instances below. *)
Definition sample_video (id : option string) (title : string)
  (views : option N) (ago : option string) : Video.t :=
  {| Video.videoId := id;
     Video.url := "https://youtube.com/watch";
     Video.title := title;
     Video.description := None;
     Video.image := None;
     Video.thumbnail := None;
     Video.ago := ago;
     Video.views := views;
     Video.author := None |}.

(** Thirteen candidates that differ in their identifier only. *)
Definition sample_candidates : list Video.t :=
  List.map (fun id => sample_video (Some id) "first" None None)
    ["x01"; "x02"; "x03"; "x04"; "x05"; "x06"; "x07"; "x08"; "x09"; "x10";
     "x11"; "x12"; "x13"].

Definition sample_request (topic : option string) : Request.t :=
  {| Request.topic := topic;
     Request.description := None;
     Request.audience := None;
     Request.style := None;
     Request.duration := None;
     Request.language := None |}.

(** Relevance when case is ignored on both sides: the fraction of the
    keywords whose lower-cased form occurs in the lower-cased text. *)
Definition relevance_ignoring_case (video : Video.t) (keywords : list string) : R :=
  if (0 <? List.length keywords)%nat
  then (INR (List.length
               (filter (fun k => Js.includes (video_text video) (Js.toLowerCase k))
                  keywords))
        / INR (List.length keywords))%R
  else 0.3%R.

(** The piece [split] is collecting. *)
Definition piece (cur : option string) : string :=
  match cur with Some w => w | None => EmptyString end.

(** Membership in a list of keys. *)
Definition mem (w : string) (ks : list string) : bool :=
  existsb (String.eqb w) ks.

(** The invariant of the loop: keys are distinct, and every entry is a
    video stored under its own, non-empty identifier. *)
Definition dedupe_inv (m : JsMap.t Video.t) : Prop :=
  NoDup (JsMap.keys m) /\
  forall k v, In (k, v) m -> Video.videoId v = Some k /\ k <> "".

(** ** Further functions of the route and of the page *)

(** A natural number as a template string renders it. *)
Definition show_N (n : N) : string := NilEmpty.string_of_uint (N.to_uint n).

Section NumberFormats.
(** Two number formats are left to the host: [(views / 1_000_000).toFixed(1)],
    whose digits depend on the rounding of the double, and
    [views.toLocaleString()], which depends on the locale.  Both are taken as
    functions of the view count. *)
Variable toFixed1 : N -> string.
Variable toLocaleString : N -> string.

(** The view label of [buildHighlights].  On a natural number below
    [2^53], [Math.round(views / 1000)] is [(views + 500) div 1000]. *)
Definition viewLabel (views : N) : string :=
  if (1000000 <? views)%N then (toFixed1 views ++ "M views")%string
  else if (10000 <? views)%N
       then (show_N ((views + 500) / 1000) ++ "k views")%string
       else (toLocaleString views ++ " views")%string.

Definition buildHighlights (video : Video.t) (keywords : list string)
  : list string :=
  let highlights := [] in
  let lowerTitle := Js.toLowerCase (Video.title video) in
  let highlights :=
    fold_left
      (fun highlights keyword =>
         if Js.includes lowerTitle keyword
         then highlights ++ [("Focus on " ++ keyword)%string]
         else highlights)
      (firstn 5 keywords) highlights in
  let highlights :=
    match Video.views video with
    | Some views =>
        if (views =? 0)%N then highlights else highlights ++ [viewLabel views]
    | None => highlights
    end in
  match Video.ago video with
  | Some ago =>
      if Js.truthy ago then highlights ++ [("Published " ++ ago)%string]
      else highlights
  | None => highlights
  end.

(** [formatViews] of the page. *)
Definition formatViews (views : N) : string :=
  if (1000000 <=? views)%N then (toFixed1 views ++ "M")%string
  else if (1000 <=? views)%N then (show_N ((views + 500) / 1000) ++ "k")%string
  else toLocaleString views.
End NumberFormats.

(** The [combined] array of [buildSeo], which it returns as [tags]:
    [Array.from(new Set([...themes, ...keywords])).slice(0, 12)].  A [Set]
    keeps the first occurrence of each string, in insertion order. *)
Definition buildSeo_tags (themes keywords : list string) : list string :=
  firstn 12 (first_seen (themes ++ keywords)).

(** The [description] field of [buildSeo].  (Its [titleIdeas] use a
    character outside the modelled range and are not embedded.) *)
Definition buildSeo_description (topic : string) (themes keywords : list string)
  : string :=
  ("I analyzed the most successful " ++ topic
   ++ " videos this week to decode what actually works. Expect deep dives into "
   ++ String.concat ", " (firstn 5 (buildSeo_tags themes keywords))
   ++ ", plus a step-by-step plan you can copy for your next upload.")%string.

(** The double quote character. *)
Definition dquote : string := String "034" EmptyString.

Definition reference_line (video : Insight.t) : string :=
  ("Watch " ++ dquote ++ Insight.title video ++ dquote
   ++ " to study their hook and pacing.")%string.

Definition references_fallback : string :=
  "Save at least two reference videos to mirror their energy and editing cadence.".

Definition buildActionItems (topic : string) (themes : list string)
  (insights : list Insight.t) : list string :=
  let references :=
    String.concat " " (List.map reference_line (firstn 3 insights)) in
  [ ("Draft your opening hook anchoring " ++ topic
     ++ " to a real outcome your viewers want.")%string;
    ("Storyboard three chapters around "
     ++ String.concat ", " (firstn 3 themes)
     ++ " and align visual interrupts for each.")%string;
    if Js.truthy references then references else references_fallback ].

(** [submitDisabled] of the page: [loading || form.topic.trim().length < 3]. *)
Definition submitDisabled (loading : bool) (topic : string) : bool :=
  loading || (String.length (Js.trim topic) <? 3)%nat.

(** The non-empty identifier of a video, if it has one, and the non-empty
    identifiers of a list of videos, in order. *)
Definition video_ids (v : Video.t) : list string :=
  match Video.videoId v with
  | Some i => if Js.truthy i then [i] else []
  | None => []
  end.

Definition valid_ids (videos : list Video.t) : list string :=
  flat_map video_ids videos.

(** A key enters an insertion-ordered key list at the end, once. *)
Definition add_key (ks : list string) (k : string) : list string :=
  if mem k ks then ks else ks ++ [k].

(** The insights before the slice: mapped and sorted. *)
Definition sortedInsights (combinedRaw : list Video.t)
  (fallbackTokens : list string) : list Insight.t :=
  sort by_score_desc (List.map (toInsight fallbackTokens) combinedRaw).

(** [e] has the score [k]. *)
Definition score_is (k : R) (e : Insight.t) : bool :=
  if Req_dec_T (Insight.score e) k then true else false.

(** * Properties *)

(** ** Characters *)

Ltac by_chars c :=
  destruct c as [[] [] [] [] [] [] [] []]; vm_compute; congruence.

Lemma alnum_not_space c : Js.is_alnum c = true -> Js.is_space c = false.
Proof. by_chars c. Qed.

Lemma alnum_lower_char c : Js.is_alnum c = true -> Js.lower_char c = c.
Proof. by_chars c. Qed.

Lemma strip_char_class c :
  Js.is_alnum (strip_char c) || Js.is_space (strip_char c) = true.
Proof. by_chars c. Qed.

Lemma strip_char_keeps c :
  Js.is_alnum c || Js.is_space c = true -> strip_char c = c.
Proof. by_chars c. Qed.

(** ** Strings *)

Lemma string_map_app f a b : Js.map f (a ++ b)%string = (Js.map f a ++ Js.map f b)%string.
Proof. induction a as [|c a IH]; simpl; [reflexivity | now rewrite IH]. Qed.

Lemma string_map_id_on f p s :
  (forall c, p c = true -> f c = c) -> Js.forallb p s = true -> Js.map f s = s.
Proof.
  intros Hf. induction s as [|c s IH]; simpl; intros H; [reflexivity|].
  apply andb_true_iff in H as [Hc Hs]. now rewrite Hf, IH.
Qed.

Lemma string_forallb_app p a b :
  Js.forallb p (a ++ b)%string = Js.forallb p a && Js.forallb p b.
Proof.
  induction a as [|c a IH]; simpl; [reflexivity|].
  now rewrite IH, andb_assoc.
Qed.

Lemma forallb_map_strip s :
  Js.forallb (fun c => Js.is_alnum c || Js.is_space c) (Js.map strip_char s) = true.
Proof.
  induction s as [|c s IH]; simpl; [reflexivity|].
  now rewrite strip_char_class, IH.
Qed.

Lemma string_app_assoc (a b c : string) :
  ((a ++ b) ++ c = a ++ (b ++ c))%string.
Proof. induction a as [|x a IH]; simpl; [reflexivity | now rewrite IH]. Qed.

Lemma string_app_nil_r (a : string) : (a ++ "")%string = a.
Proof. induction a as [|x a IH]; simpl; [reflexivity | now rewrite IH]. Qed.

(** ** [split] *)

(** Every piece is made of the characters between two separator runs. *)
Lemma split_from_alnum s : forall cur,
  Js.forallb (fun c => Js.is_alnum c || Js.is_space c) s = true ->
  Js.forallb Js.is_alnum (piece cur) = true ->
  Forall (fun w => Js.forallb Js.is_alnum w = true) (Js.split_from cur s).
Proof.
  induction s as [|c s IH]; simpl; intros cur Hs Hcur.
  - constructor; [exact Hcur | constructor].
  - apply andb_true_iff in Hs as [Hc Hs].
    destruct (Js.is_space c) eqn:Esp.
    + destruct cur as [w|]; [constructor; [exact Hcur|]|]; now apply IH.
    + rewrite orb_false_r in Hc. apply IH; [exact Hs|].
      destruct cur as [w|]; simpl in *.
      * now rewrite string_forallb_app, Hcur; simpl; rewrite Hc.
      * now rewrite Hc.
Qed.

(** A string without white space is a single piece. *)
Lemma split_from_word w : forall acc,
  Js.forallb Js.is_alnum w = true ->
  Js.split_from (Some acc) w = [(acc ++ w)%string].
Proof.
  induction w as [|c w IH]; simpl; intros acc H.
  - now rewrite string_app_nil_r.
  - apply andb_true_iff in H as [Hc Hw].
    rewrite (alnum_not_space _ Hc), IH by exact Hw.
    now rewrite string_app_assoc.
Qed.

(** Once empty pieces are filtered out it does not matter whether a scan
    starts at the beginning of the text or right after a separator. *)
Lemma split_from_restart s :
  filter keep_word (Js.split_from None s)
  = filter keep_word (Js.split_from (Some "") s).
Proof.
  destruct s as [|c s]; simpl; [reflexivity|].
  destruct (Js.is_space c); reflexivity.
Qed.

Lemma split_from_app_space a : forall cur sp b,
  Js.is_space sp = true ->
  filter keep_word (Js.split_from cur (a ++ String sp b)%string)
  = filter keep_word (Js.split_from cur a) ++ filter keep_word (Js.split_ws b).
Proof.
  unfold Js.split_ws.
  induction a as [|c a IH]; simpl; intros cur sp b Hsp.
  - rewrite Hsp. destruct cur as [w|]; simpl.
    + rewrite split_from_restart. destruct (keep_word w); reflexivity.
    + now rewrite split_from_restart.
  - destruct (Js.is_space c).
    + destruct cur as [w|]; simpl; rewrite IH by exact Hsp;
        [destruct (keep_word w)|]; reflexivity.
    + now apply IH.
Qed.

(** ** [tokenize] *)

Lemma keep_word_ok w :
  keep_word w = true -> 3 <= String.length w /\ ~ In w STOP_WORDS.
Proof.
  unfold keep_word, STOP_WORDS_has. intros H.
  apply andb_true_iff in H as [H Hlen]. apply andb_true_iff in H as [_ Hstop].
  apply Nat.ltb_lt in Hlen. split; [lia|].
  intros Hin. apply negb_true_iff in Hstop.
  assert (existsb (String.eqb w) STOP_WORDS = true) as E.
  { apply existsb_exists. exists w. split; [exact Hin | apply String.eqb_refl]. }
  congruence.
Qed.

Lemma token_ok_keep w : token_ok w -> keep_word w = true.
Proof.
  intros (_ & Hlen & Hstop). unfold keep_word, STOP_WORDS_has.
  assert (existsb (String.eqb w) STOP_WORDS = false) as E.
  { destruct (existsb (String.eqb w) STOP_WORDS) eqn:E; [|reflexivity].
    apply existsb_exists in E as (x & Hin & Hx).
    apply String.eqb_eq in Hx. subst x. contradiction. }
  rewrite E. destruct w as [|c w]; simpl in *; [lia|].
  apply Nat.ltb_lt. lia.
Qed.

Lemma tokenize_all_ok text : Forall token_ok (tokenize text).
Proof.
  unfold tokenize, Js.split_ws.
  set (s := Js.map strip_char (Js.toLowerCase text)).
  pose proof (split_from_alnum s (Some "") (forallb_map_strip _) eq_refl) as H.
  apply Forall_forall. intros w Hw. apply filter_In in Hw as [Hw Hk].
  rewrite Forall_forall in H. split; [now apply H | now apply keep_word_ok].
Qed.

Lemma tokenize_app_space a b :
  tokenize (a ++ " " ++ b)%string = tokenize a ++ tokenize b.
Proof.
  unfold tokenize, Js.toLowerCase. rewrite !string_map_app. simpl.
  now apply split_from_app_space.
Qed.

Lemma tokenize_token w : token_ok w -> tokenize w = [w].
Proof.
  intros Hw. pose proof Hw as (Hal & _).
  unfold tokenize, Js.toLowerCase, Js.split_ws.
  rewrite (string_map_id_on Js.lower_char Js.is_alnum w alnum_lower_char Hal).
  rewrite (string_map_id_on strip_char Js.is_alnum w) by
    (auto; intros c Hc; apply strip_char_keeps; now rewrite Hc).
  rewrite split_from_word by exact Hal. simpl.
  now rewrite (token_ok_keep w Hw).
Qed.

(** C3.  Every token [tokenize] returns consists of lower-case Latin letters
    and digits only, has at least three characters and is not a stop word.
    Tokens come out in text order with duplicates retained: the tokens of
    [a ++ " " ++ b] are those of [a] followed by those of [b], and a text
    that is itself a well-formed token is returned as that one token.  The
    empty text has no tokens. *)
Theorem tokenize_spec :
  (forall text, Forall token_ok (tokenize text)) /\
  (forall a b, tokenize (a ++ " " ++ b)%string = tokenize a ++ tokenize b) /\
  (forall w, token_ok w -> tokenize w = [w]) /\
  tokenize "" = [].
Proof.
  split; [exact tokenize_all_ok|].
  split; [exact tokenize_app_space|].
  split; [exact tokenize_token | reflexivity].
Qed.

Lemma token_ok_tools : token_ok "tools".
Proof.
  split; [reflexivity|]. split; [simpl; lia|].
  simpl. intros H. repeat (destruct H as [H|H]; [discriminate|]). exact H.
Qed.

Lemma tokenize_spec_witness :
  tokenize "tools tools" = ["tools"; "tools"].
Proof.
  change "tools tools" with ("tools" ++ " " ++ "tools")%string.
  destruct tokenize_spec as (_ & Happ & Htok & _).
  rewrite Happ, (Htok "tools" token_ok_tools). reflexivity.
Defined.

(** ** Stable sort *)

Section StableSortFacts.
Context {A : Type} (swap : A -> A -> bool).

Hypothesis swap_asym : forall a b, swap a b = true -> swap b a = false.
Hypothesis in_order_trans :
  forall a b c, in_order swap a b -> in_order swap b c -> in_order swap a c.

Lemma insert_perm x l : Permutation (insert swap x l) (x :: l).
Proof.
  induction l as [|y r IH]; simpl; [reflexivity|].
  destruct (swap x y); [|reflexivity].
  rewrite IH. apply perm_swap.
Qed.

Lemma sort_perm l : Permutation (sort swap l) l.
Proof.
  induction l as [|x l IH]; simpl; [reflexivity|].
  rewrite insert_perm. now constructor.
Qed.

Lemma sort_length l : List.length (sort swap l) = List.length l.
Proof. apply Permutation_length, sort_perm. Qed.

Lemma insert_sorted x l :
  StronglySorted (in_order swap) l -> StronglySorted (in_order swap) (insert swap x l).
Proof.
  induction 1 as [|y r Hr IH Hy]; simpl.
  - repeat constructor.
  - destruct (swap x y) eqn:E.
    + constructor; [exact IH|].
      apply Forall_forall. intros z Hz.
      apply (Permutation_in _ (insert_perm x r)) in Hz as [<-|Hz].
      * now apply swap_asym.
      * rewrite Forall_forall in Hy. now apply Hy.
    + constructor; [now constructor|].
      constructor; [exact E|].
      apply Forall_forall. intros z Hz. rewrite Forall_forall in Hy.
      apply in_order_trans with y; [exact E | now apply Hy].
Qed.

Lemma sort_sorted l : StronglySorted (in_order swap) (sort swap l).
Proof.
  induction l as [|x l IH]; simpl; [constructor | now apply insert_sorted].
Qed.

(** Stability: elements that the comparator never swaps among themselves
    keep their relative order. *)
Section Stable.
Variable p : A -> bool.
Hypothesis p_tied : forall a b, p a = true -> p b = true -> swap a b = false.

Lemma insert_filter x l :
  filter p (insert swap x l) = filter p (x :: l).
Proof.
  induction l as [|y r IH]; [reflexivity|].
  simpl insert. destruct (swap x y) eqn:E; [|reflexivity].
  simpl in *. rewrite IH.
  destruct (p x) eqn:Ex, (p y) eqn:Ey; try reflexivity.
  rewrite (p_tied x y Ex Ey) in E. discriminate.
Qed.

Lemma sort_stable l : filter p (sort swap l) = filter p l.
Proof.
  induction l as [|x l IH]; [reflexivity|].
  simpl sort. rewrite insert_filter. simpl. now rewrite IH.
Qed.
End Stable.
End StableSortFacts.

Lemma StronglySorted_firstn {A} (R : A -> A -> Prop) n l :
  StronglySorted R l -> StronglySorted R (firstn n l).
Proof.
  revert n. induction l as [|x l IH]; intros [|n] H; simpl; try constructor.
  - apply IH. now inversion H.
  - inversion H as [|? ? _ Hx]; subst.
    apply Forall_forall. intros y Hy. rewrite Forall_forall in Hx.
    apply Hx. revert Hy. clear. revert n.
    induction l as [|z l IH]; intros [|n]; simpl; try tauto.
    intros [->|H]; [now left | right; eauto].
Qed.

Lemma StronglySorted_map {A B} (f : A -> B) (R : B -> B -> Prop) l :
  StronglySorted (fun a b => R (f a) (f b)) l -> StronglySorted R (List.map f l).
Proof.
  induction 1 as [|x l _ IH Hx]; simpl; constructor; [exact IH|].
  rewrite Forall_forall in *. intros y Hy.
  apply in_map_iff in Hy as (z & <- & Hz). now apply Hx.
Qed.

Lemma StronglySorted_impl {A} (R S : A -> A -> Prop) l :
  (forall a b, R a b -> S a b) -> StronglySorted R l -> StronglySorted S l.
Proof.
  intros HRS. induction 1 as [|x l _ IH Hx]; constructor; [exact IH|].
  rewrite Forall_forall in *. auto.
Qed.

(** ** Insertion-ordered maps *)

Section JsMapFacts.
Context {V : Type}.
Implicit Types (m : JsMap.t V) (k : string) (v : V).

Lemma get_set_same k v m : JsMap.get k (JsMap.set k v m) = Some v.
Proof.
  induction m as [|[k' v'] m IH]; simpl.
  - now rewrite String.eqb_refl.
  - destruct (String.eqb k k') eqn:E; simpl; rewrite ?String.eqb_refl, ?E; auto.
Qed.

Lemma get_set_other k k' v m :
  k' <> k -> JsMap.get k' (JsMap.set k v m) = JsMap.get k' m.
Proof.
  intros Hne. apply String.eqb_neq in Hne.
  induction m as [|[k0 v0] m IH]; simpl.
  - now rewrite Hne.
  - destruct (String.eqb k k0) eqn:E; simpl.
    + apply String.eqb_eq in E. subst k0. now rewrite Hne.
    + now rewrite IH.
Qed.

Lemma has_in_keys k m : JsMap.has k m = true <-> In k (JsMap.keys m).
Proof.
  unfold JsMap.has. induction m as [|[k' v'] m IH]; simpl.
  - split; [discriminate | tauto].
  - destruct (String.eqb k k') eqn:E.
    + apply String.eqb_eq in E. subst. split; auto.
    + apply String.eqb_neq in E. rewrite IH. split; [auto|].
      intros [H|H]; [congruence | exact H].
Qed.

Lemma keys_set k v m :
  JsMap.keys (JsMap.set k v m)
  = if JsMap.has k m then JsMap.keys m else JsMap.keys m ++ [k].
Proof.
  unfold JsMap.has. induction m as [|[k' v'] m IH]; simpl; [reflexivity|].
  destruct (String.eqb k k') eqn:E; simpl.
  - apply String.eqb_eq in E. now subst.
  - rewrite IH. now destruct (JsMap.get k m).
Qed.

(** A map whose keys are distinct and whose values are given by [f] is the
    graph of [f] over its keys. *)
Lemma entries_graph (f : string -> V) m :
  NoDup (JsMap.keys m) ->
  (forall k, In k (JsMap.keys m) -> JsMap.get k m = Some (f k)) ->
  m = List.map (fun k => (k, f k)) (JsMap.keys m).
Proof.
  induction m as [|[k v] m IH]; simpl; intros Hnd Hget; [reflexivity|].
  inversion Hnd as [|? ? Hk Hnd']; subst.
  pose proof (Hget k (or_introl eq_refl)) as Hkv.
  rewrite String.eqb_refl in Hkv. injection Hkv as ->.
  f_equal. apply IH; [exact Hnd'|].
  intros k' Hk'. specialize (Hget k' (or_intror Hk')).
  destruct (String.eqb k' k) eqn:E; [|exact Hget].
  apply String.eqb_eq in E. subst. contradiction.
Qed.

End JsMapFacts.

(** ** First occurrences *)

Lemma mem_In w ks : mem w ks = true <-> In w ks.
Proof.
  unfold mem. rewrite existsb_exists. split.
  - intros (x & Hx & E). apply String.eqb_eq in E. now subst.
  - intros H. exists w. split; [exact H | apply String.eqb_refl].
Qed.

Lemma mem_app w a b : mem w (a ++ b) = mem w a || mem w b.
Proof. apply existsb_app. Qed.

Lemma filter_filter {A} (p q : A -> bool) l :
  filter p (filter q l) = filter (fun x => q x && p x) l.
Proof.
  induction l as [|x l IH]; simpl; [reflexivity|].
  destruct (q x); simpl; [destruct (p x)|]; now rewrite IH.
Qed.

Lemma first_seen_In w l : In w (first_seen l) <-> In w l.
Proof.
  induction l as [|x l IH]; simpl; [tauto|].
  rewrite filter_In, IH, negb_true_iff, String.eqb_neq.
  destruct (string_dec x w) as [->|Hne]; [tauto|].
  split; [intros [H|[H _]]; auto|].
  intros [H|H]; [auto | right; split; [exact H | congruence]].
Qed.

Lemma first_seen_NoDup l : NoDup (first_seen l).
Proof.
  induction l as [|x l IH]; simpl; constructor.
  - rewrite filter_In, String.eqb_refl. intros [_ H]. discriminate.
  - now apply NoDup_filter.
Qed.

Lemma precedes_filter {A} (p : A -> bool) a b l :
  precedes a b (filter p l) -> precedes a b l.
Proof.
  intros (l1 & l2 & l3 & E). revert l1 E.
  induction l as [|x l IH]; simpl; intros l1 E.
  - destruct l1; discriminate.
  - destruct (p x).
    + destruct l1 as [|y l1]; simpl in E; injection E as -> E.
      * assert (In b (filter p l)) as Hb
          by (rewrite E; apply in_or_app; right; now left).
        apply filter_In in Hb as [Hb _]. apply in_split in Hb as (m1 & m2 & ->).
        now exists [], m1, m2.
      * destruct (IH _ E) as (m1 & m2 & m3 & ->).
        now exists (y :: m1), m2, m3.
    + destruct (IH _ E) as (m1 & m2 & m3 & ->). now exists (x :: m1), m2, m3.
Qed.

Lemma filter_precedes {A} (p : A -> bool) a b l :
  precedes a b l -> p a = true -> p b = true -> precedes a b (filter p l).
Proof.
  intros (l1 & l2 & l3 & ->) Ha Hb.
  exists (filter p l1), (filter p l2), (filter p l3).
  rewrite filter_app. simpl. rewrite Ha, filter_app. simpl. now rewrite Hb.
Qed.

Lemma precedes_firstn {A} (a b : A) n l :
  precedes a b (firstn n l) -> precedes a b l.
Proof.
  intros (l1 & l2 & l3 & E). rewrite <- (firstn_skipn n l), E.
  exists l1, l2, (l3 ++ skipn n l).
  now rewrite <- !app_assoc; simpl; rewrite <- !app_assoc.
Qed.

Lemma precedes_map {A B} (f : A -> B) a b l :
  precedes a b (List.map f l) ->
  exists x y, f x = a /\ f y = b /\ precedes x y l.
Proof.
  intros (l1 & l2 & l3 & E).
  apply map_eq_app in E as (m1 & r1 & -> & <- & E).
  apply map_eq_cons in E as (x & r2 & -> & <- & E).
  apply map_eq_app in E as (m2 & r3 & -> & <- & E).
  apply map_eq_cons in E as (y & m3 & -> & <- & <-).
  exists x, y. repeat split. now exists m1, m2, m3.
Qed.

(** Order in [first_seen] is order of first occurrence. *)
Lemma first_seen_precedes a b l :
  precedes a b (first_seen l) -> first_before a b l.
Proof.
  induction l as [|x l IH]; intros H.
  - destruct H as ([|? ?] & ? & ? & ?); discriminate.
  - simpl in H. destruct H as ([|y l1] & l2 & l3 & E); simpl in E;
      injection E as -> E.
    + exists [], l. repeat split; auto.
      assert (In b (filter (fun y => negb (String.eqb y a)) (first_seen l))) as Hb
        by (rewrite E; apply in_or_app; right; now left).
      apply filter_In in Hb as [_ Hb].
      apply negb_true_iff, String.eqb_neq in Hb. congruence.
    + assert (precedes a b (filter (fun z => negb (String.eqb z y)) (first_seen l)))
        as Hp by (now exists l1, l2, l3).
      assert (In a (l1 ++ a :: l2 ++ b :: l3)) as Hia
        by (apply in_or_app; right; now left).
      assert (In b (l1 ++ a :: l2 ++ b :: l3)) as Hib
        by (apply in_or_app; right; right; apply in_or_app; right; now left).
      rewrite <- E in Hia, Hib.
      apply filter_In in Hia as [_ Hay]. apply filter_In in Hib as [_ Hby].
      apply negb_true_iff, String.eqb_neq in Hay, Hby.
      apply precedes_filter in Hp. destruct (IH Hp) as (m1 & m2 & -> & Ha & Hb & Hab).
      exists (y :: m1), m2. repeat split; auto.
      * intros [H|H]; [congruence | contradiction].
      * intros [H|H]; [congruence | contradiction].
Qed.

(** ** Keyword aggregation *)

Lemma has_mem {V} k (m : JsMap.t V) : JsMap.has k m = mem k (JsMap.keys m).
Proof.
  destruct (JsMap.has k m) eqn:E, (mem k (JsMap.keys m)) eqn:E'; auto.
  - apply has_in_keys, mem_In in E. congruence.
  - apply mem_In, has_in_keys in E'. congruence.
Qed.

Lemma keys_bump freq w :
  JsMap.keys (bump freq w)
  = if mem w (JsMap.keys freq) then JsMap.keys freq else JsMap.keys freq ++ [w].
Proof. unfold bump. now rewrite keys_set, has_mem. Qed.

Lemma filter_true {A} (l : list A) : filter (fun _ => true) l = l.
Proof. induction l as [|x l IH]; simpl; [reflexivity | now rewrite IH]. Qed.

Lemma keys_fold_bump ws : forall freq,
  JsMap.keys (fold_left bump ws freq)
  = JsMap.keys freq
    ++ filter (fun w => negb (mem w (JsMap.keys freq))) (first_seen ws).
Proof.
  induction ws as [|x ws IH]; intros freq; simpl.
  - now rewrite app_nil_r.
  - rewrite IH, keys_bump, filter_filter.
    destruct (mem x (JsMap.keys freq)) eqn:Ex; simpl.
    + f_equal. apply filter_ext. intros y.
      destruct (String.eqb y x) eqn:Eyx; simpl; [|reflexivity].
      apply String.eqb_eq in Eyx. subst y. now rewrite Ex.
    + rewrite <- app_assoc. simpl. do 2 f_equal.
      apply filter_ext. intros y. rewrite mem_app. simpl.
      rewrite orb_false_r.
      now destruct (String.eqb y x), (mem y (JsMap.keys freq)).
Qed.

Lemma count_fold_bump ws : forall freq w,
  or_else (JsMap.get w (fold_left bump ws freq)) 0
  = or_else (JsMap.get w freq) 0 + count_occ string_dec ws w.
Proof.
  induction ws as [|x ws IH]; intros freq w; simpl; [lia|].
  rewrite IH. unfold bump.
  destruct (string_dec x w) as [->|Hne].
  - rewrite get_set_same. unfold or_else. simpl. lia.
  - rewrite get_set_other by congruence. lia.
Qed.

Lemma fold_count_text texts : forall freq,
  fold_left count_text texts freq = fold_left bump (all_tokens texts) freq.
Proof.
  unfold all_tokens.
  induction texts as [|t texts IH]; intros freq; simpl; [reflexivity|].
  now rewrite fold_left_app, IH.
Qed.

(** The map the loop builds is the frequency table in first-occurrence
    order. *)
Lemma freq_table texts : fold_left count_text texts [] = counted texts.
Proof.
  rewrite fold_count_text. unfold counted, frequency.
  set (ws := all_tokens texts). set (m := fold_left bump ws []).
  assert (JsMap.keys m = first_seen ws) as Hk.
  { unfold m. rewrite keys_fold_bump. simpl. apply filter_true. }
  rewrite <- Hk. apply entries_graph.
  - rewrite Hk. apply first_seen_NoDup.
  - intros k Hin. pose proof (count_fold_bump ws [] k) as Hc. fold m in Hc.
    apply has_in_keys in Hin. unfold JsMap.has in Hin.
    destruct (JsMap.get k m); [|discriminate]. simpl in Hc. now rewrite Hc.
Qed.

Lemma aggregateKeywords_ranked texts :
  aggregateKeywords texts = List.map fst (firstn 10 (ranked texts)).
Proof. unfold aggregateKeywords, ranked. now rewrite freq_table. Qed.

Lemma by_count_desc_spec a b : by_count_desc a b = true <-> snd a < snd b.
Proof. unfold by_count_desc. rewrite Z.ltb_lt. lia. Qed.

Lemma by_count_desc_order a b : in_order by_count_desc a b <-> snd b <= snd a.
Proof.
  unfold in_order. destruct (by_count_desc a b) eqn:E.
  - apply by_count_desc_spec in E. split; [discriminate | lia].
  - split; [intros _ | reflexivity].
    destruct (le_lt_dec (snd b) (snd a)) as [|Hlt]; [assumption|].
    apply by_count_desc_spec in Hlt. congruence.
Qed.

Lemma ranked_sorted texts :
  StronglySorted (fun a b => snd b <= snd a) (ranked texts).
Proof.
  apply StronglySorted_impl with (R := in_order by_count_desc).
  - intros a b. apply by_count_desc_order.
  - apply sort_sorted.
    + intros a b H. apply by_count_desc_order.
      apply by_count_desc_spec in H. lia.
    + intros a b c. rewrite !by_count_desc_order. lia.
Qed.

Lemma ranked_perm texts : Permutation (ranked texts) (counted texts).
Proof. apply sort_perm. Qed.

Lemma counted_entry texts e :
  In e (counted texts) <->
  In (fst e) (all_tokens texts) /\ snd e = frequency texts (fst e).
Proof.
  unfold counted. rewrite in_map_iff. split.
  - intros (w & <- & Hw). simpl. now rewrite <- first_seen_In.
  - intros [Hin Hs]. exists (fst e). rewrite first_seen_In.
    split; [|exact Hin]. destruct e; simpl in *. now subst.
Qed.

Lemma ranked_entry texts e :
  In e (ranked texts) <->
  In (fst e) (all_tokens texts) /\ snd e = frequency texts (fst e).
Proof.
  rewrite <- counted_entry. split; apply Permutation_in;
    [apply ranked_perm | symmetry; apply ranked_perm].
Qed.

(** Entries with the same count stand in [ranked] as they do in the table. *)
Lemma ranked_stable texts (k : nat) :
  filter (fun e => (snd e =? k)%nat) (ranked texts)
  = filter (fun e => (snd e =? k)%nat) (counted texts).
Proof.
  apply sort_stable. intros a b Ha Hb.
  apply Nat.eqb_eq in Ha, Hb. apply by_count_desc_order. lia.
Qed.

Lemma StronglySorted_app_inv {A} (R : A -> A -> Prop) l1 l2 x y :
  StronglySorted R (l1 ++ l2) -> In x l1 -> In y l2 -> R x y.
Proof.
  induction l1 as [|z l1 IH]; simpl; intros Hs Hx Hy; [contradiction|].
  inversion Hs as [|? ? Hs' Hz]; subst. destruct Hx as [->|Hx].
  - rewrite Forall_forall in Hz. apply Hz, in_or_app. now right.
  - now apply IH.
Qed.

Lemma frequency_pos texts w : In w (all_tokens texts) <-> 0 < frequency texts w.
Proof. unfold frequency. apply count_occ_In. Qed.

Lemma StronglySorted_impl_in {A} (R S : A -> A -> Prop) l :
  (forall a b, In a l -> In b l -> R a b -> S a b) ->
  StronglySorted R l -> StronglySorted S l.
Proof.
  intros H Hs. induction Hs as [|x l _ IH Hx]; constructor.
  - apply IH. intros a b Ha Hb. apply H; now right.
  - rewrite Forall_forall in *. intros y Hy.
    apply H; [now left | now right | now apply Hx].
Qed.

Lemma ranked_sorted_frequency texts :
  StronglySorted
    (fun a b => frequency texts (fst b) <= frequency texts (fst a))
    (ranked texts).
Proof.
  apply StronglySorted_impl_in with (R := fun a b => snd b <= snd a);
    [|apply ranked_sorted].
  intros a b Ha Hb. apply ranked_entry in Ha as [_ <-], Hb as [_ <-]. auto.
Qed.

Lemma ranked_keys texts :
  Permutation (List.map fst (ranked texts)) (first_seen (all_tokens texts)).
Proof.
  rewrite (Permutation_map fst (ranked_perm texts)).
  unfold counted. rewrite map_map. simpl. now rewrite map_id.
Qed.

Lemma NoDup_firstn_map {A B} (f : A -> B) n l :
  NoDup (List.map f l) -> NoDup (List.map f (firstn n l)).
Proof.
  intros H. rewrite <- (firstn_skipn n l), map_app in H.
  now apply NoDup_app_remove_r in H.
Qed.

Lemma in_firstn {A} (x : A) n l : In x (firstn n l) -> In x l.
Proof.
  intros H. rewrite <- (firstn_skipn n l). apply in_or_app. now left.
Qed.

(** C4.  [aggregateKeywords] returns at most 10 distinct words, all of them
    tokens of the texts, in order of descending frequency; the words left
    out are no more frequent than the words returned; of two returned words
    with the same frequency the one that occurs first in the token stream
    stands first; and a word that is strictly more frequent than every other
    word is the first word returned. *)
Theorem aggregateKeywords_spec : forall texts,
  let res := aggregateKeywords texts in
  List.length res <= 10 /\
  NoDup res /\
  (forall w, In w res -> In w (all_tokens texts)) /\
  StronglySorted (fun a b => frequency texts b <= frequency texts a) res /\
  (forall a b, In a res -> In b (all_tokens texts) -> ~ In b res ->
     frequency texts b <= frequency texts a) /\
  (forall a b, precedes a b res -> frequency texts a = frequency texts b ->
     first_before a b (all_tokens texts)) /\
  (forall w, (forall w', w' <> w -> frequency texts w' < frequency texts w) ->
     hd_error res = Some w).
Proof.
  intros texts res. subst res. rewrite aggregateKeywords_ranked.
  split; [|split; [|split; [|split; [|split; [|split]]]]].
  - rewrite length_map. apply firstn_le_length.
  - apply NoDup_firstn_map.
    apply (Permutation_NoDup (Permutation_sym (ranked_keys texts))).
    apply first_seen_NoDup.
  - intros w Hw. apply in_map_iff in Hw as (e & <- & He).
    apply in_firstn, ranked_entry in He. tauto.
  - apply StronglySorted_map, StronglySorted_firstn, ranked_sorted_frequency.
  - intros a b Ha Hb Hnb.
    apply in_map_iff in Ha as (ea & <- & Hea).
    assert (In (b, frequency texts b) (ranked texts)) as Heb
      by (apply ranked_entry; auto).
    rewrite <- (firstn_skipn 10 (ranked texts)) in Heb.
    apply in_app_or in Heb as [Heb|Heb].
    + exfalso. apply Hnb. change b with (fst (b, frequency texts b)).
      now apply in_map.
    + pose proof (ranked_sorted_frequency texts) as Hs.
      rewrite <- (firstn_skipn 10 (ranked texts)) in Hs.
      exact (StronglySorted_app_inv _ _ _ _ _ Hs Hea Heb).
  - intros a b Hp Hf.
    apply precedes_map in Hp as (x & y & <- & <- & Hp).
    apply precedes_firstn in Hp.
    assert (In x (ranked texts) /\ In y (ranked texts)) as [Hx Hy].
    { destruct Hp as (l1 & l2 & l3 & ->). split; apply in_or_app; right;
        [now left | right; apply in_or_app; right; now left]. }
    apply ranked_entry in Hx as [_ Hx], Hy as [_ Hy].
    apply (filter_precedes (fun e => (snd e =? snd x)%nat)) in Hp;
      [|apply Nat.eqb_refl | apply Nat.eqb_eq; congruence].
    rewrite ranked_stable in Hp. apply precedes_filter in Hp.
    apply precedes_map in Hp as (u & v & <- & <- & Hp). simpl.
    now apply first_seen_precedes.
  - intros w Hmax.
    assert (In w (all_tokens texts)) as Hw.
    { apply frequency_pos. specialize (Hmax (String "a" w)).
      assert (String "a" w <> w) as Hne.
      { intros E. apply (f_equal String.length) in E. simpl in E. lia. }
      specialize (Hmax Hne). clear Hne. lia. }
    assert (In (w, frequency texts w) (ranked texts)) as Hin
      by (apply ranked_entry; auto).
    pose proof (ranked_sorted_frequency texts) as Hs.
    destruct (ranked texts) as [|h t]; [contradiction|]. simpl. f_equal.
    destruct (string_dec (fst h) w) as [E|Hne]; [exact E|].
    exfalso. specialize (Hmax _ Hne).
    destruct Hin as [->|Hin]; [now apply Hne|].
    inversion Hs as [|? ? _ Hh]; subst. rewrite Forall_forall in Hh.
    specialize (Hh _ Hin). simpl in Hh. clear - Hmax Hh. lia.
Qed.

Lemma aggregateKeywords_spec_witness :
  hd_error (aggregateKeywords ["beta alpha beta"]) = Some "beta".
Proof.
  apply (aggregateKeywords_spec ["beta alpha beta"]).
  intros w' Hne. unfold frequency.
  change (all_tokens ["beta alpha beta"]) with ["beta"; "alpha"; "beta"].
  change (count_occ string_dec ["beta"; "alpha"; "beta"] "beta") with 2.
  cbv [count_occ].
  destruct (string_dec "beta" w') as [E|_]; [congruence|].
  destruct (string_dec "alpha" w'); clear; lia.
Defined.

(** ** Deduplication *)

Lemma in_set {V} k (v : V) m e :
  In e (JsMap.set k v m) -> e = (k, v) \/ In e m.
Proof.
  induction m as [|[k' v'] m IH]; simpl.
  - intros [<-|[]]. now left.
  - destruct (String.eqb k k'); simpl.
    + intros [<-|H]; auto.
    + intros [<-|H]; auto. destruct (IH H); auto.
Qed.

Lemma truthy_nonempty s : Js.truthy s = true <-> s <> "".
Proof. destruct s; simpl; split; congruence. Qed.

Lemma dedupe_step_inv m video : dedupe_inv m -> dedupe_inv (dedupe_step m video).
Proof.
  intros [Hnd Hent]. unfold dedupe_step.
  destruct (Video.videoId video) as [id|] eqn:Eid; [|now split].
  destruct (Js.truthy id) eqn:Et; simpl; [|now split].
  destruct (JsMap.has id m) eqn:Eh; simpl; [now split|].
  split.
  - rewrite keys_set, Eh. apply NoDup_app; [exact Hnd | repeat constructor; auto |].
    intros k Hk [<-|[]]. apply has_in_keys in Hk. congruence.
  - intros k v Hin. apply in_set in Hin as [E|Hin]; [|now apply Hent].
    injection E as -> ->. split; [exact Eid | now apply truthy_nonempty].
Qed.

Lemma dedupe_fold_inv videos : forall m,
  dedupe_inv m -> dedupe_inv (fold_left dedupe_step videos m).
Proof.
  induction videos as [|v videos IH]; simpl; intros m Hm; [exact Hm|].
  now apply IH, dedupe_step_inv.
Qed.

Lemma dedupe_step_from m video e :
  In e (dedupe_step m video) -> In e m \/ snd e = video.
Proof.
  unfold dedupe_step.
  destruct (Video.videoId video) as [id|]; auto.
  destruct (Js.truthy id); simpl; auto.
  destruct (JsMap.has id m); simpl; auto.
  intros H. apply in_set in H as [->|H]; auto.
Qed.

Lemma dedupe_fold_from videos : forall m e,
  In e (fold_left dedupe_step videos m) -> In e m \/ In (snd e) videos.
Proof.
  induction videos as [|v videos IH]; simpl; intros m e H; auto.
  apply IH in H as [H|H]; auto.
  apply dedupe_step_from in H as [H|H]; auto.
Qed.

(** What the map holds for an identifier once the loop is over: what it
    held before, or else the first video of the list carrying it. *)
Lemma dedupe_fold_get videos : forall m id,
  id <> "" ->
  JsMap.get id (fold_left dedupe_step videos m)
  = match JsMap.get id m with
    | Some v => Some v
    | None => find (has_id id) videos
    end.
Proof.
  induction videos as [|v videos IH]; simpl; intros m id Hid.
  - now destruct (JsMap.get id m).
  - rewrite IH by exact Hid. unfold dedupe_step, has_id.
    destruct (Video.videoId v) as [i|]; [|reflexivity].
    destruct (Js.truthy i) eqn:Et; simpl.
    + destruct (JsMap.has i m) eqn:Eh; simpl.
      * destruct (String.eqb i id) eqn:E; [|reflexivity].
        apply String.eqb_eq in E. subst i. unfold JsMap.has in Eh.
        now destruct (JsMap.get id m).
      * destruct (String.eqb i id) eqn:E.
        -- apply String.eqb_eq in E. subst i. rewrite get_set_same.
           unfold JsMap.has in Eh. now destruct (JsMap.get id m).
        -- apply String.eqb_neq in E. now rewrite get_set_other by congruence.
    + destruct (String.eqb i id) eqn:E; [|reflexivity].
      apply String.eqb_eq in E. subst i. destruct id; [congruence | discriminate].
Qed.

Lemma filter_has_id_none id m :
  dedupe_inv m -> ~ In id (JsMap.keys m) ->
  filter (has_id id) (JsMap.values m) = [].
Proof.
  intros [_ Hent]. induction m as [|[k v] m IH]; simpl; intros Hk; [reflexivity|].
  destruct (Hent k v (or_introl eq_refl)) as [Hv _].
  unfold has_id at 1. rewrite Hv.
  destruct (String.eqb k id) eqn:E.
  - apply String.eqb_eq in E. tauto.
  - apply IH; [|tauto]. intros k' v' H. apply Hent. now right.
Qed.

Lemma filter_has_id_get id v m :
  dedupe_inv m -> JsMap.get id m = Some v ->
  filter (has_id id) (JsMap.values m) = [v].
Proof.
  induction m as [|[k v0] m IH]; simpl; intros [Hnd Hent] Hget; [discriminate|].
  inversion Hnd as [|? ? Hk Hnd']; subst.
  assert (dedupe_inv m) as Hm
    by (split; [exact Hnd' | intros k' v' H; apply Hent; now right]).
  destruct (Hent k v0 (or_introl eq_refl)) as [Hv _].
  unfold has_id at 1. rewrite Hv, String.eqb_sym.
  destruct (String.eqb id k) eqn:E.
  - apply String.eqb_eq in E. subst k. injection Hget as ->.
    now rewrite filter_has_id_none.
  - now apply IH.
Qed.

Lemma dedupe_inv_empty : dedupe_inv [].
Proof. split; [constructor | intros ? ? []]. Qed.

Lemma dedupeVideos_entry videos v :
  In v (dedupeVideos videos) ->
  exists id, Video.videoId v = Some id /\ id <> "" /\ In v videos.
Proof.
  unfold dedupeVideos, JsMap.values. intros H.
  apply in_map_iff in H as ([k v'] & <- & H). simpl.
  destruct (dedupe_fold_inv videos [] dedupe_inv_empty) as [_ Hent].
  destruct (Hent _ _ H) as [Hv Hk]. exists k. repeat split; auto.
  apply dedupe_fold_from in H as [[]|H]. exact H.
Qed.

Lemma dedupeVideos_first videos id v :
  id <> "" -> find (has_id id) videos = Some v ->
  filter (has_id id) (dedupeVideos videos) = [v].
Proof.
  intros Hid Hfind. apply filter_has_id_get.
  - apply dedupe_fold_inv, dedupe_inv_empty.
  - now rewrite dedupe_fold_get.
Qed.

Lemma dedupeVideos_NoDup videos : NoDup (List.map Video.videoId (dedupeVideos videos)).
Proof.
  unfold dedupeVideos, JsMap.values.
  destruct (dedupe_fold_inv videos [] dedupe_inv_empty) as [Hnd Hent].
  set (m := fold_left dedupe_step videos []) in *.
  assert (List.map Video.videoId (List.map snd m) = List.map Some (JsMap.keys m)) as ->.
  { unfold JsMap.keys. rewrite !map_map. apply map_ext_in.
    intros [k v] H. simpl. now apply Hent. }
  apply Finite.Injective_map_NoDup; [|exact Hnd].
  intros a b E. now injection E.
Qed.

Lemma find_has_id_some id videos :
  In (Some id) (List.map Video.videoId videos) ->
  exists v, find (has_id id) videos = Some v.
Proof.
  induction videos as [|v videos IH]; simpl; [tauto|].
  unfold has_id at 1. intros [E|H].
  - rewrite E, String.eqb_refl. eauto.
  - destruct (Video.videoId v) as [i|]; [destruct (String.eqb i id)|]; eauto.
Qed.

Lemma find_app_some {A} (p : A -> bool) l1 l2 x :
  find p l1 = Some x -> find p (l1 ++ l2) = Some x.
Proof.
  induction l1 as [|y l1 IH]; simpl; [discriminate|].
  destruct (p y); auto.
Qed.

(** C5.  In the output of [dedupeVideos] no identifier occurs twice; every
    non-empty identifier of the input occurs exactly once, carried by the
    first input record that has it; in the concatenation of the three result
    sets a record of the primary set therefore wins over later records with
    the same identifier. *)
Theorem dedupeVideos_spec : forall videos,
  let out := dedupeVideos videos in
  NoDup (List.map Video.videoId out) /\
  (forall id, id <> "" -> In (Some id) (List.map Video.videoId videos) ->
     exists v, find (has_id id) videos = Some v /\
               filter (has_id id) out = [v]) /\
  (forall primary trending best id v,
     videos = primary ++ trending ++ best -> id <> "" ->
     find (has_id id) primary = Some v ->
     filter (has_id id) out = [v]).
Proof.
  intros videos out. subst out. split; [apply dedupeVideos_NoDup|]. split.
  - intros id Hid Hin. destruct (find_has_id_some _ _ Hin) as [v Hv].
    exists v. split; [exact Hv | now apply dedupeVideos_first].
  - intros p t b id v -> Hid Hfind.
    apply dedupeVideos_first; [exact Hid | now apply find_app_some].
Qed.

Lemma dedupeVideos_spec_witness :
  filter (has_id "x1")
    (dedupeVideos
       ([sample_video (Some "x1") "first" None None]
        ++ [sample_video (Some "x1") "again" None None] ++ []))
  = [sample_video (Some "x1") "first" None None].
Proof.
  apply (proj2 (proj2 (dedupeVideos_spec _))
           [sample_video (Some "x1") "first" None None]
           [sample_video (Some "x1") "again" None None] [] "x1");
    [reflexivity | discriminate | reflexivity].
Defined.

(** ** Request handler *)

Lemma dedupe_step_lacks m video : lacks_id video = true -> dedupe_step m video = m.
Proof.
  unfold lacks_id, dedupe_step.
  destruct (Video.videoId video) as [i|]; [|reflexivity].
  now intros ->.
Qed.

Lemma dedupe_fold_lacks videos :
  Forall (fun v => lacks_id v = true) videos ->
  forall m, fold_left dedupe_step videos m = m.
Proof.
  induction 1 as [|v videos Hv _ IH]; intros m; simpl; [reflexivity|].
  now rewrite dedupe_step_lacks, IH.
Qed.

Lemma dedupeVideos_lacks videos :
  Forall (fun v => lacks_id v = true) videos -> dedupeVideos videos = [].
Proof.
  intros H. unfold dedupeVideos. now rewrite dedupe_fold_lacks.
Qed.

Lemma by_score_desc_spec a b :
  by_score_desc a b = true <-> (Insight.score a < Insight.score b)%R.
Proof.
  unfold by_score_desc.
  destruct (Rlt_dec 0 (Insight.score b - Insight.score a)); split; intros;
    try lra; try reflexivity; discriminate.
Qed.

Lemma by_score_desc_order a b :
  in_order by_score_desc a b <-> (Insight.score a >= Insight.score b)%R.
Proof.
  unfold in_order. destruct (by_score_desc a b) eqn:E.
  - apply by_score_desc_spec in E. split; [discriminate | lra].
  - split; [intros _ | reflexivity].
    destruct (Rlt_dec (Insight.score a) (Insight.score b)) as [Hlt|]; [|lra].
    apply by_score_desc_spec in Hlt. congruence.
Qed.

Lemma rankInsights_sorted raw tokens :
  StronglySorted (fun a b => (Insight.score a >= Insight.score b)%R)
    (rankInsights raw tokens).
Proof.
  unfold rankInsights. apply StronglySorted_firstn.
  apply StronglySorted_impl with (R := in_order by_score_desc).
  - intros a b. apply by_score_desc_order.
  - apply sort_sorted.
    + intros a b H. apply by_score_desc_order.
      apply by_score_desc_spec in H. lra.
    + intros a b c. rewrite !by_score_desc_order. lra.
Qed.

Lemma rankInsights_length raw tokens :
  List.length (rankInsights raw tokens) <= 12
  /\ List.length (rankInsights raw tokens) <= List.length raw.
Proof.
  unfold rankInsights. split; [apply firstn_le_length|].
  rewrite length_firstn, sort_length, length_map. lia.
Qed.

Lemma rankInsights_from raw tokens i :
  In i (rankInsights raw tokens) ->
  exists v, In v raw /\ i = toInsight tokens v.
Proof.
  unfold rankInsights. intros H. apply in_firstn in H.
  apply (Permutation_in _ (sort_perm _ _)) in H.
  apply in_map_iff in H as (v & <- & Hv). eauto.
Qed.

(** What a successful response is made of. *)
Lemma POST_json yts body doc :
  snd (POST yts body) = Json doc ->
  exists t primary trending best tokens,
    Request.topic body = Some t /\ Js.trim t <> "" /\
    yts (Js.trim t) = Some primary /\
    yts (Js.trim t ++ " trending")%string = Some trending /\
    yts ("best " ++ Js.trim t)%string = Some best /\
    Document.inspiration doc
    = rankInsights (dedupeVideos (primary ++ trending ++ best)) tokens /\
    Document.keyThemes doc
    = firstn 5 (aggregateKeywords
                  (List.map insight_text (Document.inspiration doc))) /\
    Document.outline doc = buildOutline (Js.trim t) (Document.keyThemes doc).
Proof.
  unfold POST, fetchVideoSet, bind, ret.
  destruct (Request.topic body) as [t|]; cbn [option_map]; [|discriminate].
  destruct (Js.truthy (Js.trim t)) eqn:Et; cbn [negb snd]; [|discriminate].
  set (q2 := (Js.trim t ++ " trending")%string).
  set (q3 := ("best " ++ Js.trim t)%string).
  destruct (yts (Js.trim t)) as [p|] eqn:E1, (yts q2) as [tr|] eqn:E2,
    (yts q3) as [b|] eqn:E3; try discriminate.
  destruct (List.length (dedupeVideos (p ++ tr ++ b)) =? 0)%nat; [discriminate|].
  intros E. injection E as <-.
  cbn [Document.inspiration Document.keyThemes Document.outline].
  exists t, p, tr, b. eexists. repeat split; try reflexivity; try assumption.
  now apply truthy_nonempty.
Qed.

(** C2.  The insight list is sorted by descending score and has at most 12
    elements, whatever the deduplicated candidates; in a successful response
    the [inspiration] field is that list, and it is the list the themes are
    computed from. *)
Theorem ranking_spec :
  (forall combinedRaw fallbackTokens,
     StronglySorted (fun a b => (Insight.score a >= Insight.score b)%R)
       (rankInsights combinedRaw fallbackTokens) /\
     List.length (rankInsights combinedRaw fallbackTokens) <= 12) /\
  (forall yts body doc,
     snd (POST yts body) = Json doc ->
     StronglySorted (fun a b => (Insight.score a >= Insight.score b)%R)
       (Document.inspiration doc) /\
     List.length (Document.inspiration doc) <= 12 /\
     Document.keyThemes doc
     = firstn 5 (aggregateKeywords
                   (List.map insight_text (Document.inspiration doc)))).
Proof.
  split.
  - intros raw tokens. split; [apply rankInsights_sorted | apply rankInsights_length].
  - intros yts body doc H.
    apply POST_json in H as (t & p & tr & b & tokens & _ & _ & _ & _ & _ & -> & Hk & _).
    split; [apply rankInsights_sorted|]. split; [apply rankInsights_length | exact Hk].
Qed.

Lemma ranking_spec_witness :
  exists doc,
    snd (POST (fun _ => Some [sample_video (Some "x1") "first" None None])
           (sample_request (Some "robots"))) = Json doc /\
    List.length (Document.inspiration doc) <= 12.
Proof.
  assert (exists doc,
            snd (POST (fun _ => Some [sample_video (Some "x1") "first" None None])
                   (sample_request (Some "robots"))) = Json doc) as [doc E]
    by (eexists; reflexivity).
  exists doc. split; [exact E|].
  apply (proj2 ranking_spec _ _ _ E).
Defined.

(** The error answers on a body of the declared type: without a usable
    topic, status 400 and no query; with three empty result lists, status
    404. *)
Lemma POST_errors : forall yts body,
  (topic_missing body ->
   exists msg, POST yts body = ([], JsonError 400 msg) /\ msg <> "") /\
  (forall t, Request.topic body = Some t -> Js.trim t <> "" ->
     yts (Js.trim t) = Some [] ->
     yts (Js.trim t ++ " trending")%string = Some [] ->
     yts ("best " ++ Js.trim t)%string = Some [] ->
     exists msg,
       POST yts body
       = ([Js.trim t; (Js.trim t ++ " trending")%string; ("best " ++ Js.trim t)%string],
          JsonError 404 msg) /\
       Js.includes (Js.toLowerCase msg) "no videos" = true).
Proof.
  intros yts body. split.
  - unfold topic_missing, POST, ret. intros H. exists "Topic is required".
    split; [|discriminate].
    destruct (Request.topic body) as [t|]; cbn [option_map]; [|reflexivity].
    now rewrite H.
  - intros t Ht Hne H1 H2 H3.
    exists "No videos found for the provided topic.". split; [|reflexivity].
    unfold POST, fetchVideoSet, bind, ret. rewrite Ht. cbn [option_map].
    rewrite (proj2 (truthy_nonempty _) Hne). cbn [negb].
    now rewrite H1, H2, H3.
Qed.

(** A request without a topic that is not answered with status 400: the
    body [null].  Reading [body.topic] throws, and the [catch] answers with
    status 500. *)
Lemma POST_request_null_body :
  POST_request (fun _ => Some []) BodyNull
  = ([], JsonError 500 "Failed to analyze topic. Please try again later.") /\
  (forall msg, snd (POST_request (fun _ => Some []) BodyNull) <> JsonError 400 msg).
Proof. split; [reflexivity | discriminate]. Qed.

(** C9.  A request whose body can be read and whose topic is missing, or
    empty once trimmed, is answered with status 400 and a non-empty error
    message, and no query is sent to the provider.  A request that cannot be
    read (a body that is not JSON or is [null], a topic that is not a
    string, or a usable topic with a description that cannot be converted to
    a string) is answered with status 500 and a non-empty error message,
    also without a query.  When the three queries of a request all return an
    empty list, the answer has status 404 and its error message mentions
    "no videos". *)
Theorem POST_request_errors : forall yts request,
  (request_topic_blank request ->
   exists msg, POST_request yts request = ([], JsonError 400 msg) /\ msg <> "") /\
  (request_unreadable request ->
   exists msg, POST_request yts request = ([], JsonError 500 msg) /\ msg <> "") /\
  (forall body t,
     request = BodyTyped body ->
     Request.topic body = Some t -> Js.trim t <> "" ->
     yts (Js.trim t) = Some [] ->
     yts (Js.trim t ++ " trending")%string = Some [] ->
     yts ("best " ++ Js.trim t)%string = Some [] ->
     exists msg,
       POST_request yts request
       = ([Js.trim t; (Js.trim t ++ " trending")%string; ("best " ++ Js.trim t)%string],
          JsonError 404 msg) /\
       Js.includes (Js.toLowerCase msg) "no videos" = true).
Proof.
  intros yts request. split; [|split].
  - destruct request as [| | |topic|body]; cbn [request_topic_blank];
      try contradiction.
    + intros H. exists "Topic is required". split; [|discriminate].
      unfold POST_request. now rewrite H.
    + intros H. exact (proj1 (POST_errors yts body) H).
  - destruct request as [| | |topic|body]; cbn [request_unreadable];
      try contradiction; intros H;
      exists "Failed to analyze topic. Please try again later.";
      (split; [|discriminate]); try reflexivity.
    unfold POST_request. now rewrite (proj2 (truthy_nonempty _) H).
  - intros body t -> Ht Hne H1 H2 H3.
    exact (proj2 (POST_errors yts body) t Ht Hne H1 H2 H3).
Qed.

Lemma POST_request_errors_witness :
  (exists msg,
     POST_request (fun _ => None) (BodyTyped (sample_request (Some "   ")))
     = ([], JsonError 400 msg) /\ msg <> "") /\
  (exists msg,
     POST_request (fun _ => Some []) BodyNull = ([], JsonError 500 msg) /\
     msg <> "") /\
  (exists msg,
     POST_request (fun _ => Some []) (BodyTyped (sample_request (Some " robots ")))
     = (["robots"; "robots trending"; "best robots"], JsonError 404 msg) /\
     Js.includes (Js.toLowerCase msg) "no videos" = true).
Proof.
  split; [|split].
  - apply (proj1 (POST_request_errors (fun _ => None)
                    (BodyTyped (sample_request (Some "   "))))).
    reflexivity.
  - apply (proj1 (proj2 (POST_request_errors (fun _ => Some []) BodyNull))).
    exact I.
  - apply (proj2 (proj2 (POST_request_errors (fun _ => Some [])
                           (BodyTyped (sample_request (Some " robots ")))))
             (sample_request (Some " robots ")) " robots "); try reflexivity.
    discriminate.
Defined.

(** C10.  [dedupeVideos] drops every candidate whose [videoId] is missing or
    empty, so no insight of a response stems from such a candidate; and when
    every video the three queries return lacks an identifier, the answer is
    the 404 "No videos found" response although the provider returned
    videos. *)
Theorem missing_id_discarded :
  (forall videos v,
     In v (dedupeVideos videos) -> lacks_id v = false /\ In v videos) /\
  (forall yts body doc i,
     snd (POST yts body) = Json doc -> In i (Document.inspiration doc) ->
     exists v tokens,
       lacks_id v = false /\ Video.videoId v = Some (Insight.id i) /\
       i = toInsight tokens v) /\
  (forall yts body t primary trending best,
     Request.topic body = Some t -> Js.trim t <> "" ->
     yts (Js.trim t) = Some primary ->
     yts (Js.trim t ++ " trending")%string = Some trending ->
     yts ("best " ++ Js.trim t)%string = Some best ->
     Forall (fun v => lacks_id v = true) (primary ++ trending ++ best) ->
     snd (POST yts body)
     = JsonError 404 "No videos found for the provided topic.").
Proof.
  assert (forall videos v,
            In v (dedupeVideos videos) ->
            lacks_id v = false /\ In v videos /\
            exists id, Video.videoId v = Some id) as Hd.
  { intros videos v H. apply dedupeVideos_entry in H as (id & Hid & Hne & Hin).
    unfold lacks_id. rewrite Hid. apply truthy_nonempty in Hne. rewrite Hne.
    eauto. }
  split; [|split].
  - intros videos v H. destruct (Hd _ _ H) as (? & ? & _). now split.
  - intros yts body doc i H Hi.
    apply POST_json in H as (t & p & tr & b & tokens & _ & _ & _ & _ & _ & E & _).
    rewrite E in Hi. apply rankInsights_from in Hi as (v & Hv & ->).
    destruct (Hd _ _ Hv) as (Hl & _ & id & Hid).
    exists v, tokens. repeat split; [exact Hl|].
    unfold toInsight. cbn [Insight.id]. now rewrite Hid.
  - intros yts body t p tr b Ht Hne H1 H2 H3 Hall.
    unfold POST, fetchVideoSet, bind, ret. rewrite Ht. cbn [option_map].
    rewrite (proj2 (truthy_nonempty _) Hne). cbn [negb snd].
    now rewrite H1, H2, H3, dedupeVideos_lacks.
Qed.

Lemma missing_id_discarded_witness :
  snd (POST (fun _ => Some [sample_video None "untracked" (Some 10%N) None;
                            sample_video (Some "") "blank" None None])
         (sample_request (Some "robots")))
  = JsonError 404 "No videos found for the provided topic.".
Proof.
  eapply (proj2 (proj2 missing_id_discarded)); try reflexivity.
  - discriminate.
  - repeat constructor.
Defined.

(** ** Outline *)

Lemma capitalize_first c r :
  capitalize (String c r) = String (if Js.is_word c then Js.upper_char c else c) r.
Proof. simpl. now destruct (Js.is_word c). Qed.

(** C8, as the code has it.  [buildOutline] returns [2 + min 3 n] segments
    for [n] themes, hence 5 as soon as there are 3 themes: "Hook & Context"
    (0:00 - 0:45) first; one "Breakdown N" segment for each of the first 3
    themes, with the time ranges 0:45 - 2:30, 2:30 - 4:00 and 4:00 - 5:30 and
    with the theme's first character upper-cased in the title when it is one
    of [A-Za-z0-9_] (any other first character is left as it is);
    "Action Plan & CTA" (5:30 - 7:00) last; and every segment has exactly 3
    talking points and 3 b-roll ideas. *)
Theorem buildOutline_spec : forall topic themes,
  let out := buildOutline topic themes in
  List.length out = 2 + Nat.min 3 (List.length themes) /\
  (3 <= List.length themes -> List.length out = 5) /\
  (exists rest, out = hookSegment topic :: rest) /\
  Segment.title (hookSegment topic) = "Hook & Context" /\
  Segment.durationHint (hookSegment topic) = "0:00 - 0:45" /\
  (exists front, out = front ++ [ctaSegment]) /\
  Segment.title ctaSegment = "Action Plan & CTA" /\
  Segment.durationHint ctaSegment = "5:30 - 7:00" /\
  (forall i theme, i < 3 -> nth_error themes i = Some theme ->
     exists seg, nth_error out (S i) = Some seg /\
       Segment.title seg
       = ("Breakdown " ++ nth i ["1"; "2"; "3"] "" ++ ": " ++ capitalize theme)%string /\
       Segment.durationHint seg
       = nth i ["0:45 - 2:30"; "2:30 - 4:00"; "4:00 - 5:30"] "") /\
  (forall c r, capitalize (String c r)
               = String (if Js.is_word c then Js.upper_char c else c) r) /\
  Forall (fun seg => List.length (Segment.talkingPoints seg) = 3 /\
                     List.length (Segment.brollIdeas seg) = 3) out.
Proof.
  intros topic themes out. subst out. unfold buildOutline.
  destruct themes as [|a [|b [|c rest]]]; cbn [firstn forEach_push app List.length Nat.min].
  all: repeat split; try reflexivity; try (intros; cbn in *; lia);
    try (eexists; reflexivity); try apply capitalize_first;
    try (repeat constructor).
  all: try (now exists [hookSegment topic]);
       try (now exists [hookSegment topic; breakdownSegment 0 a]);
       try (now exists [hookSegment topic; breakdownSegment 0 a; breakdownSegment 1 b]);
       try (now exists [hookSegment topic; breakdownSegment 0 a; breakdownSegment 1 b;
                        breakdownSegment 2 c]).
  all: intros i theme Hi Hn;
    destruct i as [|[|[|i]]]; try lia; cbn in Hn; try discriminate;
    injection Hn as ->; eexists; (split; [reflexivity|]); split; reflexivity.
Qed.

Lemma buildOutline_spec_witness :
  List.length (buildOutline "robots" ["tools"; "9lives"; "_core"; "extra"]) = 5.
Proof.
  apply (buildOutline_spec "robots" ["tools"; "9lives"; "_core"; "extra"]).
  simpl. lia.
Defined.

(** C8 as stated fails: with a single theme the outline has 3 segments,
    not 5; and a theme whose first character is a letter outside [A-Za-z]
    (here U+00E9) keeps it in lower case. *)
Lemma buildOutline_not_fixed_five :
  List.length (buildOutline "robots" ["tools"]) <> 5 /\
  List.map Segment.title (buildOutline "robots" [String "233" "lan"])
  = ["Hook & Context";
     ("Breakdown 1: " ++ String "233" "lan")%string;
     "Action Plan & CTA"].
Proof. split; [discriminate | reflexivity]. Qed.

(** ** Age descriptors *)

Lemma span_app p s : forall a b, Js.span p s = (a, b) -> s = (a ++ b)%string.
Proof.
  induction s as [|c s IH]; simpl; intros a b E.
  - now injection E as <- <-.
  - destruct (p c).
    + destruct (Js.span p s) as [a' b']. injection E as <- <-.
      simpl. f_equal. now apply IH.
    + now injection E as <- <-.
Qed.

Lemma drop_suffix n : forall s, exists p, s = (p ++ Js.drop n s)%string.
Proof.
  induction n as [|n IH]; intros s; simpl.
  - now exists "".
  - destruct s as [|c s]; [now exists ""|].
    destruct (IH s) as [p Hp]. exists (String c p). simpl. now f_equal.
Qed.

(** [search] fails only if the pattern fails at every position. *)
Lemma search_none {A} (f : string -> option A) p : forall s t,
  search f s = None -> s = (p ++ t)%string -> f t = None.
Proof.
  induction p as [|c p IH]; simpl; intros s t Hs ->.
  - destruct t; simpl in Hs; destruct (f _); congruence.
  - simpl in Hs. destruct (f (String c (p ++ t))); [discriminate|].
    now apply (IH _ _ Hs).
Qed.

Lemma search_here {A} (f : string -> option A) s x :
  f s = Some x -> search f s = Some x.
Proof. intros H. destruct s; simpl; now rewrite H. Qed.

Lemma search_some {A} (f : string -> option A) s x :
  search f s = Some x -> exists p t, s = (p ++ t)%string /\ f t = Some x.
Proof.
  induction s as [|c s IH]; simpl.
  - destruct (f "") eqn:E; [|discriminate]. intros [= <-]. now exists "", "".
  - destruct (f (String c s)) eqn:E.
    + intros [= <-]. now exists "", (String c s).
    + intros H. destruct (IH H) as (p & t & -> & Ht).
      now exists (String c p), t.
Qed.

(** The second pattern contains the first one, so it never matches where
    the first one has failed. *)
Lemma streamed_implies_age s x :
  search match_streamed_at s = Some x -> search match_age_at s <> None.
Proof.
  intros H Hnone. apply search_some in H as (p & t & -> & Ht).
  unfold match_streamed_at in Ht.
  destruct (String.prefix "streamed" t); [|discriminate].
  destruct (Js.span Js.is_space (Js.drop 8 t)) as [ws r] eqn:Esp.
  destruct (Js.truthy ws); [|discriminate].
  apply span_app in Esp. destruct (drop_suffix 8 t) as [q Hq].
  rewrite Esp in Hq.
  assert (match_age_at r = None) as Hr.
  { apply (search_none _ (p ++ q ++ ws)%string _ _ Hnone).
    rewrite Hq at 1. now rewrite !string_app_assoc. }
  congruence.
Qed.

Lemma parseAgeMinutes_search ago :
  parseAgeMinutes (Some ago)
  = match search match_age_at (Js.toLowerCase ago) with
    | Some m => age_of m
    | None => (60 * 24 * 365)%Q
    end.
Proof.
  unfold parseAgeMinutes. destruct ago as [|c ago]; [reflexivity|].
  cbn [Js.truthy negb].
  destruct (search match_age_at _) eqn:E1; [reflexivity|].
  destruct (_ || _); [|reflexivity].
  destruct (search match_streamed_at _) eqn:E2; [|reflexivity].
  now apply streamed_implies_age in E2.
Qed.

Lemma match_unit_in s u : match_unit s = Some u -> In u UNITS.
Proof. unfold match_unit. intros H. now apply find_some in H. Qed.

Lemma match_age_at_unit s d u : match_age_at s = Some (d, u) -> In u UNITS.
Proof.
  unfold match_age_at.
  destruct (Js.span Js.is_digit s) as [ds r1].
  destruct (Js.span Js.is_space r1) as [ws r2].
  destruct (_ && _); [|discriminate].
  destruct (match_unit r2) eqn:E; [|discriminate].
  intros [= _ <-]. now apply match_unit_in in E.
Qed.

Lemma span_run p ds : forall rest,
  Js.forallb p ds = true ->
  match rest with EmptyString => True | String c _ => p c = false end ->
  Js.span p (ds ++ rest)%string = (ds, rest).
Proof.
  induction ds as [|c ds IH]; simpl; intros rest Hds Hrest.
  - destruct rest as [|c r]; [reflexivity|]. simpl. now rewrite Hrest.
  - apply andb_true_iff in Hds as [Hc Hds]. now rewrite Hc, IH.
Qed.

Lemma match_unit_prefix u rest : In u UNITS -> match_unit (u ++ rest)%string = Some u.
Proof.
  unfold UNITS. simpl.
  intros H. repeat (destruct H as [<-|H]; [destruct rest; reflexivity|]).
  contradiction.
Qed.

Lemma digits_lower ds :
  Js.forallb Js.is_digit ds = true -> Js.toLowerCase ds = ds.
Proof.
  intros H. apply (string_map_id_on _ Js.is_digit); [|exact H].
  intros c Hc. apply alnum_lower_char. unfold Js.is_alnum. now rewrite Hc, orb_true_r.
Qed.

Lemma unit_lower u : In u UNITS -> Js.toLowerCase u = u.
Proof.
  unfold UNITS. simpl.
  intros H. repeat (destruct H as [<-|H]; [reflexivity|]). contradiction.
Qed.

Lemma unit_starts_with_letter u rest :
  In u UNITS ->
  match (u ++ rest)%string with
  | EmptyString => True
  | String c _ => Js.is_space c = false
  end.
Proof.
  unfold UNITS. simpl.
  intros H. repeat (destruct H as [<-|H]; [reflexivity|]). contradiction.
Qed.

(** A descriptor that begins with a number, a space and a unit is read as
    that many units, whatever follows. *)
Lemma parseAgeMinutes_format ds u rest :
  ds <> "" -> Js.forallb Js.is_digit ds = true -> In u UNITS ->
  parseAgeMinutes (Some (ds ++ " " ++ u ++ rest)%string)
  = (inject_Z (Z.of_N (parseInt ds)) * timeUnitToMinutes u)%Q.
Proof.
  intros Hne Hds Hu. rewrite parseAgeMinutes_search.
  unfold Js.toLowerCase. rewrite !string_map_app.
  fold (Js.toLowerCase ds) (Js.toLowerCase u).
  rewrite (digits_lower _ Hds), (unit_lower _ Hu).
  set (rest' := Js.map Js.lower_char rest).
  assert (match_age_at (ds ++ " " ++ u ++ rest')%string = Some (ds, u)) as E.
  { unfold match_age_at. rewrite (span_run Js.is_digit ds) by (auto; reflexivity).
    change (" " ++ u ++ rest')%string with (" " ++ (u ++ rest'))%string.
    rewrite (span_run Js.is_space " " (u ++ rest')%string eq_refl
               (unit_starts_with_letter u rest' Hu)).
    rewrite (proj2 (truthy_nonempty ds) Hne). cbn [Js.truthy andb].
    now rewrite match_unit_prefix. }
  change (Js.map Js.lower_char " ") with " ".
  now rewrite (search_here _ _ _ E).
Qed.

(** C6.  The unit multipliers are second = 1/60, minute = 1, hour = 60,
    day = 1440, week = 10080, month = 43200 and year = 525600.  A descriptor
    in which the pattern "number, white space, unit" is found yields the
    number times the multiplier of the unit; in particular so does every
    descriptor that starts with such a group.  A missing descriptor, and any
    descriptor in which the pattern is not found, yields 525600.
    "streamed 3 days ago" yields 4320. *)
Theorem parseAgeMinutes_spec :
  (timeUnitToMinutes "second" = (1 # 60)%Q /\
   timeUnitToMinutes "minute" = 1%Q /\
   timeUnitToMinutes "hour" = 60%Q /\
   timeUnitToMinutes "day" = 1440%Q /\
   timeUnitToMinutes "week" = 10080%Q /\
   timeUnitToMinutes "month" = 43200%Q /\
   timeUnitToMinutes "year" = 525600%Q) /\
  (forall ago digits unit,
     search match_age_at (Js.toLowerCase ago) = Some (digits, unit) ->
     In unit UNITS /\
     parseAgeMinutes (Some ago)
     = (inject_Z (Z.of_N (parseInt digits)) * timeUnitToMinutes unit)%Q) /\
  (forall digits unit rest,
     digits <> "" -> Js.forallb Js.is_digit digits = true -> In unit UNITS ->
     parseAgeMinutes (Some (digits ++ " " ++ unit ++ rest)%string)
     = (inject_Z (Z.of_N (parseInt digits)) * timeUnitToMinutes unit)%Q) /\
  (forall ago,
     search match_age_at (Js.toLowerCase ago) = None ->
     parseAgeMinutes (Some ago) = 525600%Q) /\
  parseAgeMinutes None = 525600%Q /\
  parseAgeMinutes (Some "streamed 3 days ago") = 4320%Q.
Proof.
  split; [repeat split; reflexivity|].
  split; [|split; [|split; [|split; reflexivity]]].
  - intros ago d u H. rewrite parseAgeMinutes_search, H. split; [|reflexivity].
    apply search_some in H as (p & t & _ & Ht). now apply match_age_at_unit in Ht.
  - intros. now apply parseAgeMinutes_format.
  - intros ago H. now rewrite parseAgeMinutes_search, H.
Qed.

Lemma parseAgeMinutes_spec_witness :
  parseAgeMinutes (Some "12 weeks ago") = (12 * 10080)%Q /\
  parseAgeMinutes (Some "Premiered yesterday") = 525600%Q.
Proof.
  destruct parseAgeMinutes_spec as (_ & _ & Hfmt & Hnone & _).
  split.
  - apply (Hfmt "12" "week" "s ago"); [discriminate | reflexivity |].
    simpl. tauto.
  - apply Hnone. reflexivity.
Defined.

(** ** Scoring *)

Lemma matchCount_from text keywords : forall acc,
  fold_left (fun acc keyword => if Js.includes text keyword then acc + 1 else acc)
    keywords acc
  = acc + List.length (filter (fun k => Js.includes text k) keywords).
Proof.
  induction keywords as [|k ks IH]; intros acc; simpl; [lia|].
  rewrite IH. destruct (Js.includes text k); simpl; lia.
Qed.

Lemma matchCount_filter text keywords :
  matchCount text keywords
  = List.length (filter (fun k => Js.includes text k) keywords).
Proof. unfold matchCount. now rewrite matchCount_from. Qed.

Lemma relevance_of_nonempty video keywords :
  keywords <> [] ->
  relevance_of video keywords
  = (INR (List.length (filter (fun k => Js.includes (video_text video) k) keywords))
     / INR (List.length keywords))%R.
Proof.
  intros H. unfold relevance_of. rewrite matchCount_filter.
  destruct keywords; [contradiction | reflexivity].
Qed.

(** C1, as the code has it.  The score is
    [0.6 * viewScore + 0.3 * ageScore + 0.4 * relevance] with
    [viewScore = log10 (views + 1) / 6] (views 0 when absent) and
    [ageScore = exp (- ageMinutes / 30240)]; relevance is 0.3 for an empty
    keyword list and otherwise the fraction of the keywords that occur, as
    they are written, in the lower-cased [title + " " + description].  For
    keywords that are already in lower case this is the match that ignores
    case. *)
Theorem scoreVideo_spec : forall video keywords,
  let s := scoreVideo video keywords in
  Score.score s
  = (0.6 * viewScore video + 0.3 * ageScore video + 0.4 * Score.relevance s)%R /\
  viewScore video
  = (log10 (IZR (Z.of_N (or_else (Video.views video) 0%N)) + 1) / 6)%R /\
  ageScore video
  = exp (- Q2R (parseAgeMinutes (Video.ago video)) / (21 * 1440))%R /\
  (keywords = [] -> Score.relevance s = 0.3%R) /\
  (keywords <> [] ->
   Score.relevance s
   = (INR (List.length
             (filter (fun k => Js.includes (video_text video) k) keywords))
      / INR (List.length keywords))%R) /\
  (Forall (fun k => Js.toLowerCase k = k) keywords ->
   Score.relevance s = relevance_ignoring_case video keywords).
Proof.
  intros video keywords s. subst s. unfold scoreVideo. cbn [Score.score Score.relevance].
  split; [ring|]. split; [reflexivity|]. split.
  { unfold ageScore. f_equal. field. }
  split; [now intros ->|]. split; [apply relevance_of_nonempty|].
  intros Hlow. unfold relevance_of, relevance_ignoring_case.
  rewrite matchCount_filter. destruct (0 <? List.length keywords)%nat; [|reflexivity].
  do 3 f_equal. apply filter_ext_in. intros k Hk.
  rewrite Forall_forall in Hlow. now rewrite (Hlow k Hk).
Qed.

Lemma scoreVideo_spec_witness :
  Score.relevance
    (scoreVideo (sample_video (Some "x1") "AI Tools" None None) ["tools"; "robots"])
  = (INR 1 / INR 2)%R.
Proof.
  apply (proj1 (proj2 (proj2 (proj2 (proj2
           (scoreVideo_spec (sample_video (Some "x1") "AI Tools" None None)
              ["tools"; "robots"])))))).
  discriminate.
Defined.

(** C1 as stated fails on a keyword that is not in lower case: only the
    text is lower-cased, so "AI" is not found in the title "AI Tools", while
    a match that ignores case finds it. *)
Lemma relevance_is_case_sensitive :
  Score.relevance (scoreVideo (sample_video (Some "x1") "AI Tools" None None) ["AI"])
  = 0%R /\
  relevance_ignoring_case (sample_video (Some "x1") "AI Tools" None None) ["AI"]
  = 1%R /\
  Score.relevance (scoreVideo (sample_video (Some "x1") "AI Tools" None None) ["AI"])
  <> relevance_ignoring_case (sample_video (Some "x1") "AI Tools" None None) ["AI"].
Proof.
  unfold scoreVideo, relevance_of, relevance_ignoring_case.
  cbn [Score.relevance]. rewrite matchCount_filter.
  replace (filter (fun k => Js.includes _ (Js.toLowerCase k)) ["AI"])
    with ["AI"] by reflexivity.
  replace (filter _ ["AI"]) with (@nil string) by reflexivity.
  simpl. repeat split; lra.
Qed.

Lemma ln_10_pos : (0 < ln 10)%R.
Proof. rewrite <- ln_1. apply ln_increasing; lra. Qed.

(** C7.  A strictly higher view count never gives a lower [viewScore], and
    a descriptor that parses to a strictly larger age never gives a higher
    [ageScore]. *)
Theorem scoring_monotone :
  (forall v1 v2,
     (or_else (Video.views v1) 0 < or_else (Video.views v2) 0)%N ->
     (viewScore v1 <= viewScore v2)%R) /\
  (forall v1 v2,
     (parseAgeMinutes (Video.ago v1) < parseAgeMinutes (Video.ago v2))%Q ->
     (ageScore v2 <= ageScore v1)%R).
Proof.
  split; intros v1 v2 H.
  - unfold viewScore, log10.
    set (a := or_else (Video.views v1) 0%N) in *.
    set (b := or_else (Video.views v2) 0%N) in *.
    assert (0 <= IZR (Z.of_N a))%R as Ha by (apply IZR_le; lia).
    assert (IZR (Z.of_N a) < IZR (Z.of_N b))%R as Hab by (apply IZR_lt; lia).
    assert (ln (IZR (Z.of_N a) + 1) < ln (IZR (Z.of_N b) + 1))%R as Hln
      by (apply ln_increasing; lra).
    pose proof ln_10_pos as H10.
    apply Rmult_le_compat_r; [lra|].
    apply Rmult_le_compat_r; [|lra].
    apply Rlt_le, Rinv_0_lt_compat, H10.
  - unfold ageScore. apply Qlt_Rlt in H.
    apply Rlt_le, exp_increasing. lra.
Qed.

Lemma scoring_monotone_witness :
  (viewScore (sample_video (Some "x1") "first" (Some 10%N) None)
   <= viewScore (sample_video (Some "x2") "second" (Some 2000000%N) None))%R /\
  (ageScore (sample_video (Some "x2") "second" None (Some "2 weeks ago"))
   <= ageScore (sample_video (Some "x1") "first" None (Some "streamed 3 days ago")))%R.
Proof.
  split.
  - apply (proj1 scoring_monotone). reflexivity.
  - apply (proj2 scoring_monotone). reflexivity.
Defined.

(** ** Worked examples *)

Example split_ws_edges : Js.split_ws " a  b " = [""; "a"; "b"; ""].
Proof. reflexivity. Qed.

Example tokenize_title :
  tokenize "Best AI Tools 2025 for small-business owners!"
  = ["tools"; "small"; "business"; "owners"].
Proof. reflexivity. Qed.

Example aggregateKeywords_ties :
  aggregateKeywords ["alpha beta beta gamma"; "gamma delta gamma"; "beta alpha"]
  = ["beta"; "gamma"; "alpha"; "delta"].
Proof. reflexivity. Qed.

Example parseAgeMinutes_leftmost :
  parseAgeMinutes (Some "2 3 weeks ago") = 30240%Q.
Proof. reflexivity. Qed.

Example parseAgeMinutes_seconds :
  parseAgeMinutes (Some "Streamed 12 Seconds ago") = (12 # 60)%Q.
Proof. reflexivity. Qed.

Example parseAgeMinutes_no_space :
  parseAgeMinutes (Some "3days ago") = 525600%Q.
Proof. reflexivity. Qed.

Example dedupeVideos_keeps_first :
  List.map Video.title
    (dedupeVideos
       [sample_video (Some "x1") "first" None None;
        sample_video None "untracked" None None;
        sample_video (Some "x2") "second" None None;
        sample_video (Some "x1") "again" None None])
  = ["first"; "second"].
Proof. reflexivity. Qed.

Example buildOutline_titles :
  List.map (fun s => (Segment.title s, Segment.durationHint s))
    (buildOutline "robots" ["tools"; "9lives"; "_core"; "extra"])
  = [("Hook & Context", "0:00 - 0:45");
     ("Breakdown 1: Tools", "0:45 - 2:30");
     ("Breakdown 2: 9lives", "2:30 - 4:00");
     ("Breakdown 3: _core", "4:00 - 5:30");
     ("Action Plan & CTA", "5:30 - 7:00")].
Proof. reflexivity. Qed.

Example POST_rejected_search :
  POST (fun _ => None) (sample_request (Some "robots"))
  = (["robots"; "robots trending"; "best robots"],
     JsonError 500 "Failed to analyze topic. Please try again later.").
Proof. reflexivity. Qed.

(** * Further properties *)

(** ** Tokenizer *)

Lemma lower_char_idem c : Js.lower_char (Js.lower_char c) = Js.lower_char c.
Proof. by_chars c. Qed.

Lemma toLowerCase_idem s : Js.toLowerCase (Js.toLowerCase s) = Js.toLowerCase s.
Proof.
  unfold Js.toLowerCase. induction s as [|c s IH]; simpl; [reflexivity|].
  now rewrite lower_char_idem, IH.
Qed.

Lemma separator_is_space c :
  Js.is_alnum (Js.lower_char c) = false ->
  Js.is_space (strip_char (Js.lower_char c)) = true.
Proof. by_chars c. Qed.

(** X1.  [tokenize] ignores case, and every character that is not a letter
    or a digit once lower-cased (white space, punctuation, symbols)
    separates tokens: the tokens of [a ++ c ++ b] are those of [a] followed
    by those of [b]. *)
Theorem tokenize_ignores_case_and_punctuation :
  (forall text, tokenize (Js.toLowerCase text) = tokenize text) /\
  (forall a c b,
     Js.is_alnum (Js.lower_char c) = false ->
     tokenize (a ++ String c b)%string = tokenize a ++ tokenize b).
Proof.
  split.
  - intros text. unfold tokenize. now rewrite toLowerCase_idem.
  - intros a c b Hc. unfold tokenize, Js.toLowerCase.
    rewrite !string_map_app. simpl.
    now apply split_from_app_space, separator_is_space.
Qed.

Lemma tokenize_ignores_case_and_punctuation_witness :
  tokenize ("small" ++ String "-" "business")%string
  = tokenize "small" ++ tokenize "business".
Proof.
  apply (proj2 tokenize_ignores_case_and_punctuation). reflexivity.
Defined.

Lemma tokenize_concat ws :
  Forall token_ok ws -> tokenize (String.concat " " ws) = ws.
Proof.
  induction 1 as [|w ws Hw Hws IH]; [reflexivity|].
  destruct ws as [|w' ws].
  - simpl. now apply tokenize_token.
  - change (String.concat " " (w :: w' :: ws))
      with (w ++ " " ++ String.concat " " (w' :: ws))%string.
    now rewrite tokenize_app_space, IH, (tokenize_token w Hw).
Qed.

(** X2.  Round trip: well-formed tokens joined with single spaces tokenize
    back to the same list, so re-tokenizing the joined output of [tokenize]
    changes nothing. *)
Theorem tokenize_join_roundtrip :
  (forall ws, Forall token_ok ws -> tokenize (String.concat " " ws) = ws) /\
  (forall text,
     tokenize (String.concat " " (tokenize text)) = tokenize text).
Proof.
  split; [exact tokenize_concat|].
  intros text. apply tokenize_concat, tokenize_all_ok.
Qed.

Lemma tokenize_join_roundtrip_witness :
  tokenize (String.concat " " ["tools"; "tools"]) = ["tools"; "tools"].
Proof.
  apply (proj1 tokenize_join_roundtrip).
  repeat constructor; apply token_ok_tools.
Defined.

(** ** Keyword aggregation *)

Lemma all_tokens_ok texts w : In w (all_tokens texts) -> token_ok w.
Proof.
  unfold all_tokens. intros H. apply in_flat_map in H as (t & _ & Hw).
  pose proof (tokenize_all_ok t) as Hok. rewrite Forall_forall in Hok. auto.
Qed.

Lemma aggregateKeywords_in texts w :
  In w (aggregateKeywords texts) -> In w (all_tokens texts).
Proof.
  rewrite aggregateKeywords_ranked. intros H.
  apply in_map_iff in H as (e & <- & He).
  apply in_firstn, ranked_entry in He. tauto.
Qed.

Lemma aggregateKeywords_NoDup texts : NoDup (aggregateKeywords texts).
Proof.
  rewrite aggregateKeywords_ranked. apply NoDup_firstn_map.
  apply (Permutation_NoDup (Permutation_sym (ranked_keys texts))).
  apply first_seen_NoDup.
Qed.

Lemma aggregateKeywords_length texts :
  List.length (aggregateKeywords texts)
  = Nat.min 10 (List.length (first_seen (all_tokens texts))).
Proof.
  rewrite aggregateKeywords_ranked, length_map, length_firstn.
  now rewrite <- (Permutation_length (ranked_keys texts)), length_map.
Qed.

(** X3.  Every keyword [aggregateKeywords] returns is a well-formed token of
    one of the texts: lower-case letters and digits only, at least three
    characters, never a stop word. *)
Theorem aggregateKeywords_are_tokens : forall texts,
  Forall token_ok (aggregateKeywords texts).
Proof.
  intros texts. apply Forall_forall. intros w Hw.
  now apply (all_tokens_ok texts), aggregateKeywords_in.
Qed.

(** X4.  [aggregateKeywords] returns exactly [min 10 d] words for [d]
    distinct tokens; with at most 10 distinct tokens every one of them is
    returned, and texts without tokens give the empty list. *)
Theorem aggregateKeywords_complete : forall texts,
  List.length (aggregateKeywords texts)
  = Nat.min 10 (List.length (first_seen (all_tokens texts))) /\
  (List.length (first_seen (all_tokens texts)) <= 10 ->
   forall w, In w (all_tokens texts) -> In w (aggregateKeywords texts)) /\
  (all_tokens texts = [] -> aggregateKeywords texts = []).
Proof.
  intros texts. split; [apply aggregateKeywords_length|]. split.
  - intros Hlen w Hw. rewrite aggregateKeywords_ranked.
    rewrite firstn_all2
      by (rewrite <- (length_map fst), (Permutation_length (ranked_keys texts)); exact Hlen).
    apply (Permutation_in _ (Permutation_sym (ranked_keys texts))).
    now apply first_seen_In.
  - intros E. apply length_zero_iff_nil.
    rewrite aggregateKeywords_length, E. reflexivity.
Qed.

Lemma aggregateKeywords_complete_witness :
  In "alpha" (aggregateKeywords ["beta alpha beta"]).
Proof.
  apply (proj1 (proj2 (aggregateKeywords_complete ["beta alpha beta"]))).
  - vm_compute. lia.
  - vm_compute. tauto.
Defined.

(** ** Age descriptors *)

Lemma parseAgeMinutes_ignores_case ago :
  parseAgeMinutes (Some (Js.toLowerCase ago)) = parseAgeMinutes (Some ago).
Proof. now rewrite !parseAgeMinutes_search, toLowerCase_idem. Qed.

Lemma string_of_uint_digits d :
  Js.forallb Js.is_digit (NilEmpty.string_of_uint d) = true.
Proof. induction d; simpl; auto. Qed.

Lemma parseInt_from_uint d : forall acc,
  parseInt_from acc (NilEmpty.string_of_uint d)
  = N.of_nat (Nat.of_uint_acc d (N.to_nat acc)).
Proof.
  induction d; intros acc; simpl;
    [now rewrite N2Nat.id
    | rewrite IHd; f_equal; f_equal; rewrite Nat.tail_mul_spec;
      unfold Js.code; simpl N_of_ascii; lia ..].
Qed.

Lemma parseInt_show_nat n : parseInt (show_nat n) = N.of_nat n.
Proof.
  unfold parseInt, show_nat. rewrite parseInt_from_uint. f_equal.
  change (Nat.of_uint_acc (Nat.to_uint n) (N.to_nat 0)) with (Nat.of_uint (Nat.to_uint n)).
  apply DecimalNat.Unsigned.of_to.
Qed.

Lemma show_nat_nonempty n : show_nat n <> "".
Proof.
  unfold show_nat. intros E.
  assert (parseInt (show_nat n) = 0%N) as H0 by (unfold show_nat; now rewrite E).
  rewrite parseInt_show_nat in H0.
  assert (n = 0) as -> by lia. discriminate E.
Qed.

(** X5.  For every natural number [n] up to 10^10, every unit other than
    the second and whatever follows, a descriptor that starts with the
    decimal numeral of [n], a space and the unit in any mix of upper and
    lower case is read as [n] times the multiplier of the unit.  The
    multiplier is then a whole number and the product is below 2^53, so the
    numeral, the multiplier and their product are exact as doubles too. *)
Theorem parseAgeMinutes_numeral : forall n unit unitText rest,
  (N.of_nat n <= 10000000000)%N ->
  In unit UNITS -> unit <> "second" -> Js.toLowerCase unitText = unit ->
  parseAgeMinutes (Some (show_nat n ++ " " ++ unitText ++ rest)%string)
  = (inject_Z (Z.of_nat n) * timeUnitToMinutes unit)%Q /\
  exists k : Z,
    timeUnitToMinutes unit = inject_Z k /\ (0 < k)%Z /\
    (Z.of_nat n * k < 2 ^ 53)%Z.
Proof.
  intros n u U rest Hn Hu Hsec HU. split.
  - rewrite <- parseAgeMinutes_ignores_case.
    unfold Js.toLowerCase. rewrite !string_map_app.
    fold (Js.toLowerCase (show_nat n)) (Js.toLowerCase U).
    rewrite (digits_lower (show_nat n) (string_of_uint_digits _)), HU.
    change (Js.map Js.lower_char " ") with " ".
    rewrite parseAgeMinutes_format;
      [| apply show_nat_nonempty | apply string_of_uint_digits | exact Hu].
    now rewrite parseInt_show_nat, nat_N_Z.
  - change (2 ^ 53)%Z with 9007199254740992%Z. clear HU.
    unfold UNITS in Hu. cbn [In] in Hu.
    destruct Hu as [E|[E|[E|[E|[E|[E|[E|[]]]]]]]]; subst u;
      [ now contradiction Hsec
      | exists 1%Z | exists 60%Z | exists 1440%Z | exists 10080%Z
      | exists 43200%Z | exists 525600%Z ];
      (split; [reflexivity|]); clear Hsec; lia.
Qed.

Lemma parseAgeMinutes_numeral_witness :
  parseAgeMinutes (Some (show_nat 45 ++ " " ++ "Minute" ++ "s ago")%string)
  = (inject_Z (Z.of_nat 45) * timeUnitToMinutes "minute")%Q /\
  exists k : Z,
    timeUnitToMinutes "minute" = inject_Z k /\ (0 < k)%Z /\
    (Z.of_nat 45 * k < 2 ^ 53)%Z.
Proof.
  apply parseAgeMinutes_numeral;
    [discriminate | simpl; tauto | discriminate | reflexivity].
Defined.

Lemma timeUnitToMinutes_pos unit : (0 < timeUnitToMinutes unit)%Q.
Proof.
  unfold timeUnitToMinutes.
  repeat (destruct (String.eqb unit _); [reflexivity|]). reflexivity.
Qed.

Lemma age_of_nonneg m : (0 <= age_of m)%Q.
Proof.
  unfold age_of. apply Qmult_le_0_compat.
  - change 0%Q with (inject_Z 0). rewrite <- Zle_Qle. lia.
  - apply Qlt_le_weak, timeUnitToMinutes_pos.
Qed.

Lemma parseAgeMinutes_nonneg ago : (0 <= parseAgeMinutes ago)%Q.
Proof.
  destruct ago as [ago|]; [|discriminate].
  rewrite parseAgeMinutes_search.
  destruct (search match_age_at _); [apply age_of_nonneg | discriminate].
Qed.

Lemma ageScore_range video : (0 < ageScore video <= 1)%R.
Proof.
  unfold ageScore. split; [apply exp_pos|].
  pose proof (Qle_Rle _ _ (parseAgeMinutes_nonneg (Video.ago video))) as H.
  replace (Q2R 0) with 0%R in H by (unfold Q2R; simpl; lra).
  set (x := Q2R (parseAgeMinutes (Video.ago video))) in *.
  rewrite <- exp_0.
  destruct (Rle_lt_or_eq_dec _ _ H) as [Hlt|<-].
  - apply Rlt_le, exp_increasing. lra.
  - right. f_equal. lra.
Qed.

(** X6.  The parsed age is never negative, so the age score always lies in
    the interval [0, 1]; a video with a missing or unreadable age gets the
    score of a one-year-old video, [exp (-525600 / 30240)]. *)
Theorem ageScore_bounds : forall video,
  (0 <= parseAgeMinutes (Video.ago video))%Q /\
  (0 <= ageScore video <= 1)%R /\
  (match Video.ago video with
   | None => True
   | Some ago => search match_age_at (Js.toLowerCase ago) = None
   end ->
   ageScore video = exp (- 525600 / 30240)%R).
Proof.
  intros video. split; [apply parseAgeMinutes_nonneg|].
  split; [pose proof (ageScore_range video); lra|].
  intros H. unfold ageScore.
  assert (parseAgeMinutes (Video.ago video) = 525600%Q) as ->.
  { destruct (Video.ago video) as [ago|]; [|reflexivity].
    now rewrite parseAgeMinutes_search, H. }
  f_equal. unfold Q2R. simpl. field.
Qed.

Lemma ageScore_bounds_witness :
  ageScore (sample_video (Some "x1") "first" None (Some "yesterday"))
  = exp (- 525600 / 30240)%R.
Proof.
  apply (ageScore_bounds (sample_video (Some "x1") "first" None (Some "yesterday"))).
  reflexivity.
Defined.

(** ** Scoring *)

Lemma viewScore_nonneg video : (0 <= viewScore video)%R.
Proof.
  unfold viewScore, log10.
  set (v := or_else (Video.views video) 0%N).
  assert (0 <= IZR (Z.of_N v))%R as Hv by (apply IZR_le; lia).
  assert (0 <= ln (IZR (Z.of_N v) + 1))%R as Hln.
  { rewrite <- ln_1. destruct (Rle_lt_or_eq_dec _ _ Hv) as [Hlt|<-].
    - apply Rlt_le, ln_increasing; lra.
    - right. f_equal. lra. }
  pose proof ln_10_pos as H10.
  apply Rmult_le_pos; [|lra].
  apply Rmult_le_pos; [exact Hln|].
  apply Rlt_le, Rinv_0_lt_compat, H10.
Qed.

Lemma relevance_of_range video keywords :
  (0 <= relevance_of video keywords <= 1)%R.
Proof.
  unfold relevance_of. rewrite matchCount_filter.
  destruct keywords as [|k ks]; [simpl; lra|].
  set (l := k :: ks).
  change (0 <? List.length l)%nat with true. cbv iota.
  pose proof (filter_length_le (fun k => Js.includes (video_text video) k) l) as Hle.
  assert (0 < INR (List.length l))%R as Hpos by (apply lt_0_INR; simpl; lia).
  apply le_INR in Hle.
  pose proof (pos_INR (List.length (filter (fun k => Js.includes (video_text video) k) l))) as H0.
  pose proof (Rinv_0_lt_compat _ Hpos) as Hinv.
  unfold Rdiv. split.
  - apply Rmult_le_pos; lra.
  - rewrite <- (Rinv_r (INR (List.length l))) by lra.
    apply Rmult_le_compat_r; lra.
Qed.

(** X7.  For every video and keyword list: the view score is not negative,
    the relevance lies in [0, 1], and the composite score is not
    negative. *)
Theorem scoreVideo_bounds : forall video keywords,
  let s := scoreVideo video keywords in
  (0 <= viewScore video)%R /\
  (0 <= Score.relevance s <= 1)%R /\
  (0 <= Score.score s)%R.
Proof.
  intros video keywords s. subst s. unfold scoreVideo.
  cbn [Score.score Score.relevance].
  pose proof (viewScore_nonneg video) as Hv.
  pose proof (relevance_of_range video keywords) as Hr.
  pose proof (ageScore_range video) as Ha.
  repeat split; lra.
Qed.

(** ** Deduplication *)

Lemma fold_add_key ws : forall ks,
  fold_left add_key ws ks
  = ks ++ filter (fun w => negb (mem w ks)) (first_seen ws).
Proof.
  induction ws as [|x ws IH]; intros ks; simpl.
  - now rewrite app_nil_r.
  - rewrite IH, filter_filter. unfold add_key.
    destruct (mem x ks) eqn:Ex; simpl.
    + f_equal. apply filter_ext. intros y.
      destruct (String.eqb y x) eqn:Eyx; simpl; [|reflexivity].
      apply String.eqb_eq in Eyx. subst y. now rewrite Ex.
    + rewrite <- app_assoc. simpl. do 2 f_equal.
      apply filter_ext. intros y. rewrite mem_app. simpl.
      rewrite orb_false_r.
      now destruct (String.eqb y x), (mem y ks).
Qed.

Lemma keys_dedupe_step m v :
  JsMap.keys (dedupe_step m v) = fold_left add_key (video_ids v) (JsMap.keys m).
Proof.
  unfold dedupe_step, video_ids.
  destruct (Video.videoId v) as [i|]; [|reflexivity].
  destruct (Js.truthy i); simpl; [|reflexivity].
  unfold add_key. rewrite <- has_mem.
  destruct (JsMap.has i m) eqn:Eh; simpl; [reflexivity|].
  now rewrite keys_set, Eh.
Qed.

Lemma keys_fold_dedupe videos : forall m,
  JsMap.keys (fold_left dedupe_step videos m)
  = fold_left add_key (valid_ids videos) (JsMap.keys m).
Proof.
  unfold valid_ids.
  induction videos as [|v videos IH]; intros m; simpl; [reflexivity|].
  now rewrite IH, keys_dedupe_step, fold_left_app.
Qed.

Lemma get_keys_values {V} (m : JsMap.t V) :
  NoDup (JsMap.keys m) ->
  List.map (fun k => JsMap.get k m) (JsMap.keys m)
  = List.map Some (JsMap.values m).
Proof.
  induction m as [|[k v] m IH]; simpl; intros Hnd; [reflexivity|].
  inversion Hnd as [|? ? Hk Hnd']; subst.
  rewrite String.eqb_refl. f_equal. rewrite <- IH by exact Hnd'.
  apply map_ext_in. intros k' Hk'.
  destruct (String.eqb k' k) eqn:E; [|reflexivity].
  apply String.eqb_eq in E. subst. contradiction.
Qed.

Lemma dedupeVideos_keys videos :
  JsMap.keys (fold_left dedupe_step videos []) = first_seen (valid_ids videos).
Proof. rewrite keys_fold_dedupe, fold_add_key. simpl. apply filter_true. Qed.

Lemma dedupeVideos_as_map videos :
  List.map Some (dedupeVideos videos)
  = List.map (fun id => find (has_id id) videos) (first_seen (valid_ids videos)).
Proof.
  unfold dedupeVideos.
  destruct (dedupe_fold_inv videos [] dedupe_inv_empty) as [Hnd Hent].
  rewrite <- get_keys_values by exact Hnd.
  rewrite <- dedupeVideos_keys. apply map_ext_in. intros k Hk.
  unfold JsMap.keys in Hk. apply in_map_iff in Hk as ([k' v] & <- & Hin).
  simpl. destruct (Hent _ _ Hin) as [_ Hne].
  now rewrite dedupe_fold_get.
Qed.

Lemma dedupeVideos_ids videos :
  List.map Video.videoId (dedupeVideos videos)
  = List.map Some (first_seen (valid_ids videos)).
Proof.
  rewrite <- dedupeVideos_keys. unfold dedupeVideos, JsMap.values, JsMap.keys.
  destruct (dedupe_fold_inv videos [] dedupe_inv_empty) as [_ Hent].
  rewrite !map_map. apply map_ext_in. intros [k v] H. simpl. now apply Hent.
Qed.

Lemma first_seen_length l : List.length (first_seen l) <= List.length l.
Proof.
  induction l as [|x l IH]; simpl; [lia|].
  pose proof (filter_length_le (fun y => negb (String.eqb y x)) (first_seen l)).
  lia.
Qed.

Lemma valid_ids_length videos : List.length (valid_ids videos) <= List.length videos.
Proof.
  unfold valid_ids. induction videos as [|v videos IH]; simpl; [lia|].
  rewrite length_app. unfold video_ids at 1.
  destruct (Video.videoId v) as [i|]; [destruct (Js.truthy i)|]; simpl; lia.
Qed.

(** X8.  The output of [dedupeVideos] follows the order of first occurrence:
    its identifiers are the distinct non-empty identifiers of the input in
    that order, each output record is the first input record with its
    identifier, and the output is never longer than the input. *)
Theorem dedupeVideos_order : forall videos,
  List.map Video.videoId (dedupeVideos videos)
  = List.map Some (first_seen (valid_ids videos)) /\
  List.map Some (dedupeVideos videos)
  = List.map (fun id => find (has_id id) videos) (first_seen (valid_ids videos)) /\
  List.length (dedupeVideos videos) <= List.length videos.
Proof.
  intros videos. split; [apply dedupeVideos_ids|].
  split; [apply dedupeVideos_as_map|].
  rewrite <- (length_map Video.videoId), dedupeVideos_ids, length_map.
  pose proof (first_seen_length (valid_ids videos)).
  pose proof (valid_ids_length videos). lia.
Qed.

Lemma first_seen_NoDup_id l : NoDup l -> first_seen l = l.
Proof.
  induction 1 as [|x l Hx Hl IH]; simpl; [reflexivity|].
  rewrite IH. f_equal. apply forallb_filter_id. apply forallb_forall.
  intros y Hy. apply negb_true_iff, String.eqb_neq. congruence.
Qed.

Lemma valid_ids_all videos :
  Forall (fun v => lacks_id v = false) videos ->
  List.map Some (valid_ids videos) = List.map Video.videoId videos.
Proof.
  unfold valid_ids. induction 1 as [|v videos Hv _ IH]; simpl; [reflexivity|].
  rewrite map_app, IH. unfold lacks_id, video_ids in *.
  destruct (Video.videoId v) as [i|]; [|discriminate].
  apply negb_false_iff in Hv. now rewrite Hv.
Qed.

Lemma find_has_id_self videos : forall v i,
  NoDup (List.map Video.videoId videos) -> In v videos ->
  Video.videoId v = Some i -> find (has_id i) videos = Some v.
Proof.
  induction videos as [|x videos IH]; simpl; intros v i Hnd Hin Hv; [contradiction|].
  inversion Hnd as [|? ? Hx Hnd']; subst.
  destruct Hin as [->|Hin].
  - unfold has_id. now rewrite Hv, String.eqb_refl.
  - unfold has_id at 1. destruct (Video.videoId x) as [j|] eqn:Ex; [|now apply IH].
    destruct (String.eqb j i) eqn:E; [|now apply IH].
    apply String.eqb_eq in E. subst j. exfalso. apply Hx.
    rewrite <- Hv. now apply in_map.
Qed.

Lemma map_Some_inj {A} (l1 l2 : list A) :
  List.map Some l1 = List.map Some l2 -> l1 = l2.
Proof.
  revert l2. induction l1 as [|x l1 IH]; intros [|y l2]; simpl;
    try discriminate; [reflexivity|].
  intros E. injection E as -> E. f_equal. now apply IH.
Qed.

Lemma dedupeVideos_distinct videos :
  Forall (fun v => lacks_id v = false) videos ->
  NoDup (List.map Video.videoId videos) ->
  dedupeVideos videos = videos.
Proof.
  intros Hall Hnd.
  assert (List.map Some (dedupeVideos videos) = List.map Some videos) as E.
  { rewrite dedupeVideos_as_map.
    pose proof (valid_ids_all videos Hall) as Hids.
    assert (NoDup (valid_ids videos)) as Hnd'.
    { apply (NoDup_map_inv Some). now rewrite Hids. }
    rewrite (first_seen_NoDup_id _ Hnd').
    assert (forall l,
              List.map Some (flat_map video_ids l) = List.map Video.videoId l ->
              incl l videos ->
              List.map (fun id => find (has_id id) videos) (flat_map video_ids l)
              = List.map Some l) as Hgen.
    { induction l as [|v l IH]; simpl; intros Hl Hincl; [reflexivity|].
      assert (In v videos) as Hv by (apply Hincl; now left).
      rewrite Forall_forall in Hall. specialize (Hall v Hv).
      unfold lacks_id in Hall. unfold video_ids at 1 in Hl. unfold video_ids at 1.
      destruct (Video.videoId v) as [i|] eqn:Ei; [|discriminate].
      apply negb_false_iff in Hall. rewrite Hall in *. simpl in *.
      injection Hl as Hl. rewrite (find_has_id_self videos v i Hnd Hv Ei).
      f_equal. apply IH; [exact Hl|]. intros x Hx. apply Hincl. now right. }
    apply Hgen; [exact Hids | apply incl_refl]. }
  now apply map_Some_inj.
Qed.

Lemma dedupeVideos_valid videos :
  Forall (fun v => lacks_id v = false) (dedupeVideos videos).
Proof.
  apply Forall_forall. intros v Hv.
  apply dedupeVideos_entry in Hv as (id & Hid & Hne & _).
  unfold lacks_id. rewrite Hid. apply truthy_nonempty in Hne. now rewrite Hne.
Qed.

Lemma dedupeVideos_idempotent_aux videos :
  dedupeVideos (dedupeVideos videos) = dedupeVideos videos.
Proof.
  apply dedupeVideos_distinct; [apply dedupeVideos_valid | apply dedupeVideos_NoDup].
Qed.

(** X9.  A list whose videos all have a non-empty identifier, no two the
    same, is returned unchanged; hence [dedupeVideos] is idempotent. *)
Theorem dedupeVideos_idempotent :
  (forall videos,
     Forall (fun v => lacks_id v = false) videos ->
     NoDup (List.map Video.videoId videos) ->
     dedupeVideos videos = videos) /\
  (forall videos, dedupeVideos (dedupeVideos videos) = dedupeVideos videos).
Proof.
  split; [exact dedupeVideos_distinct|].
  intros videos. apply dedupeVideos_distinct;
    [apply dedupeVideos_valid | apply dedupeVideos_NoDup].
Qed.

Lemma dedupeVideos_idempotent_witness :
  dedupeVideos [sample_video (Some "x1") "first" None None;
                sample_video (Some "x2") "second" None None]
  = [sample_video (Some "x1") "first" None None;
     sample_video (Some "x2") "second" None None].
Proof.
  apply (proj1 dedupeVideos_idempotent).
  - repeat constructor.
  - simpl. repeat constructor; simpl; intuition discriminate.
Defined.



(** ** Request handler *)

Lemma trim_start_blank s :
  Js.trim_start s = "" <-> Js.forallb Js.is_space s = true.
Proof.
  induction s as [|c s IH]; simpl; [tauto|].
  destruct (Js.is_space c); simpl; [exact IH | split; discriminate].
Qed.

Lemma trim_start_head s :
  match Js.trim_start s with
  | EmptyString => True
  | String c _ => Js.is_space c = false
  end.
Proof.
  induction s as [|c s IH]; simpl; [exact I|].
  destruct (Js.is_space c) eqn:E; [exact IH | exact E].
Qed.

Lemma trim_blank s : Js.trim s = "" <-> Js.forallb Js.is_space s = true.
Proof.
  unfold Js.trim. rewrite <- trim_start_blank.
  pose proof (trim_start_head s) as H.
  destruct (Js.trim_start s) as [|c r]; simpl; [tauto|].
  rewrite H. split; [|discriminate].
  destruct (Js.trim_end r); discriminate.
Qed.

(** The topic check on a body of the declared type. *)
Lemma POST_topic_check : forall yts body,
  match Request.topic body with
  | Some t =>
      if Js.forallb Js.is_space t
      then POST yts body = ([], JsonError 400 "Topic is required")
      else
        fst (POST yts body)
        = [Js.trim t; (Js.trim t ++ " trending")%string;
           ("best " ++ Js.trim t)%string] /\
        forall msg, snd (POST yts body) <> JsonError 400 msg
  | None => POST yts body = ([], JsonError 400 "Topic is required")
  end.
Proof.
  intros yts body. unfold POST, fetchVideoSet, bind, ret.
  destruct (Request.topic body) as [t|]; cbn [option_map]; [|reflexivity].
  destruct (Js.forallb Js.is_space t) eqn:Eb.
  - apply trim_blank in Eb. now rewrite Eb.
  - assert (Js.trim t <> "") as Hne
      by (intros E; apply trim_blank in E; congruence).
    rewrite (proj2 (truthy_nonempty _) Hne). cbn [negb fst snd].
    split; [reflexivity|]. intros msg.
    destruct (yts (Js.trim t)) as [p|], (yts (Js.trim t ++ " trending")%string) as [tr|],
      (yts ("best " ++ Js.trim t)%string) as [b|]; try discriminate.
    destruct (List.length (dedupeVideos (p ++ tr ++ b)) =? 0)%nat; discriminate.
Qed.

(** X10.  What the handler does with the request before it searches.  A
    body that is not JSON or is [null], or a topic that is not a string, is
    answered with status 500 and no query.  Otherwise the answer is 400,
    without a query, exactly when the topic is missing or consists of white
    space only.  A usable topic with a description that cannot be converted
    to a string gives 500 and no query; every other request sends the three
    queries "<topic>", "<topic> trending" and "best <topic>" built from the
    trimmed topic, and is never answered with 400. *)
Theorem POST_request_topic_check : forall yts request,
  match request with
  | BodyUnparsable | BodyNull | BodyBadTopic =>
      POST_request yts request
      = ([], JsonError 500 "Failed to analyze topic. Please try again later.")
  | BodyBadDescription t =>
      POST_request yts request
      = ([], if Js.forallb Js.is_space t
             then JsonError 400 "Topic is required"
             else JsonError 500 "Failed to analyze topic. Please try again later.")
  | BodyTyped body =>
      match Request.topic body with
      | Some t =>
          if Js.forallb Js.is_space t
          then POST_request yts request = ([], JsonError 400 "Topic is required")
          else
            fst (POST_request yts request)
            = [Js.trim t; (Js.trim t ++ " trending")%string;
               ("best " ++ Js.trim t)%string] /\
            forall msg, snd (POST_request yts request) <> JsonError 400 msg
      | None => POST_request yts request = ([], JsonError 400 "Topic is required")
      end
  end.
Proof.
  intros yts [| | |t|body]; try reflexivity.
  - unfold POST_request, ret.
    destruct (Js.forallb Js.is_space t) eqn:Eb.
    + apply trim_blank in Eb. now rewrite Eb.
    + assert (Js.trim t <> "") as Hne
        by (intros E; apply trim_blank in E; congruence).
      now rewrite (proj2 (truthy_nonempty _) Hne).
  - exact (POST_topic_check yts body).
Qed.



(** Everything a successful response is made of. *)
Lemma POST_json_shape yts body doc :
  snd (POST yts body) = Json doc ->
  exists t raw tokens,
    Request.topic body = Some t /\ Js.trim t <> "" /\
    raw <> [] /\ dedupeVideos raw = raw /\
    Document.query doc = Js.trim t /\
    Document.inspiration doc = rankInsights raw tokens /\
    Document.keyThemes doc
    = firstn 5 (aggregateKeywords
                  (List.map insight_text (Document.inspiration doc))) /\
    Document.outline doc = buildOutline (Js.trim t) (Document.keyThemes doc) /\
    Document.metadata doc
    = {| Metadata.requestedAudience := Request.audience body;
         Metadata.tone := Request.style body;
         Metadata.durationHint := Request.duration body;
         Metadata.language := Request.language body |}.
Proof.
  unfold POST, fetchVideoSet, bind, ret.
  destruct (Request.topic body) as [t|]; cbn [option_map]; [|discriminate].
  destruct (Js.truthy (Js.trim t)) eqn:Et; cbn [negb snd]; [|discriminate].
  destruct (yts (Js.trim t)) as [p|], (yts (Js.trim t ++ " trending")%string) as [tr|],
    (yts ("best " ++ Js.trim t)%string) as [b|]; try discriminate.
  destruct (dedupeVideos (p ++ tr ++ b)) as [|v out] eqn:Ed; [discriminate|].
  cbn [List.length Nat.eqb]. intros E. injection E as <-.
  cbn [Document.query Document.inspiration Document.keyThemes
         Document.outline Document.metadata].
  exists t, (v :: out). eexists.
  repeat split; try reflexivity.
  - now apply truthy_nonempty.
  - discriminate.
  - rewrite <- Ed. apply dedupeVideos_idempotent_aux.
Qed.

Lemma sortedInsights_perm raw tokens :
  Permutation (sortedInsights raw tokens) (List.map (toInsight tokens) raw).
Proof. apply sort_perm. Qed.

Lemma sortedInsights_sorted raw tokens :
  StronglySorted (fun a b => (Insight.score a >= Insight.score b)%R)
    (sortedInsights raw tokens).
Proof.
  apply StronglySorted_impl with (R := in_order by_score_desc).
  - intros a b. apply by_score_desc_order.
  - apply sort_sorted.
    + intros a b H. apply by_score_desc_order.
      apply by_score_desc_spec in H. lra.
    + intros a b c. rewrite !by_score_desc_order. lra.
Qed.

Lemma rankInsights_slice raw tokens :
  rankInsights raw tokens = firstn 12 (sortedInsights raw tokens).
Proof. reflexivity. Qed.

Lemma rankInsights_length_min raw tokens :
  List.length (rankInsights raw tokens) = Nat.min 12 (List.length raw).
Proof.
  rewrite rankInsights_slice, length_firstn.
  now rewrite (Permutation_length (sortedInsights_perm raw tokens)), length_map.
Qed.





Lemma buildOutline_length topic themes :
  List.length (buildOutline topic themes) = 2 + Nat.min 3 (List.length themes).
Proof.
  unfold buildOutline. destruct themes as [|a [|b [|c rest]]]; reflexivity.
Qed.

Lemma firstn_Forall {A} (P : A -> Prop) n l : Forall P l -> Forall P (firstn n l).
Proof.
  rewrite !Forall_forall. intros H x Hx. apply H. now apply in_firstn in Hx.
Qed.

Lemma firstn_NoDup {A} n (l : list A) : NoDup l -> NoDup (firstn n l).
Proof.
  intros H. rewrite <- (map_id l) in H. apply (NoDup_firstn_map _ n) in H.
  now rewrite map_id in H.
Qed.

(** X13.  In a successful response the query is the trimmed, non-empty
    topic; there are at most 5 themes, pairwise distinct, each a well-formed
    token (so never a stop word) of some insight's title or description;
    the outline has [2 + min 3 themes] segments, between 2 and 5; and the
    metadata echo the optional request fields. *)
Theorem POST_document_shape : forall yts body doc,
  snd (POST yts body) = Json doc ->
  (exists t, Request.topic body = Some t /\ Document.query doc = Js.trim t) /\
  Document.query doc <> "" /\
  List.length (Document.keyThemes doc) <= 5 /\
  NoDup (Document.keyThemes doc) /\
  Forall (fun w => token_ok w /\
                   In w (all_tokens (List.map insight_text (Document.inspiration doc))))
    (Document.keyThemes doc) /\
  List.length (Document.outline doc)
  = 2 + Nat.min 3 (List.length (Document.keyThemes doc)) /\
  Metadata.requestedAudience (Document.metadata doc) = Request.audience body /\
  Metadata.tone (Document.metadata doc) = Request.style body /\
  Metadata.durationHint (Document.metadata doc) = Request.duration body /\
  Metadata.language (Document.metadata doc) = Request.language body.
Proof.
  intros yts body doc H.
  apply POST_json_shape in H
    as (t & raw & tokens & Ht & Hne & _ & _ & Hq & _ & Hk & Ho & Hm).
  split; [now exists t|]. split; [now rewrite Hq|].
  rewrite Hk, Ho, Hm, <- Hk. cbn [Metadata.requestedAudience Metadata.tone
    Metadata.durationHint Metadata.language].
  rewrite Hk at 1 2 3.
  split; [apply firstn_le_length|].
  split; [apply firstn_NoDup, aggregateKeywords_NoDup|].
  split.
  { apply firstn_Forall, Forall_forall. intros w Hw.
    apply aggregateKeywords_in in Hw. split; [|exact Hw].
    now apply all_tokens_ok in Hw. }
  split; [apply buildOutline_length|]. repeat split.
Qed.

Lemma POST_document_shape_witness :
  exists doc,
    snd (POST (fun _ => Some [sample_video (Some "x1") "first" None None])
           (sample_request (Some " robots "))) = Json doc /\
    Document.query doc <> "".
Proof.
  assert (exists doc,
            snd (POST (fun _ => Some [sample_video (Some "x1") "first" None None])
                   (sample_request (Some " robots "))) = Json doc) as [doc E]
    by (eexists; reflexivity).
  exists doc. split; [exact E|].
  apply (POST_document_shape _ _ _ E).
Defined.

(** ** Ranking *)

(** Candidates that all score the same are left in their order. *)
Lemma sortedInsights_ties raw tokens :
  (forall a b, In a raw -> In b raw ->
     Insight.score (toInsight tokens a) = Insight.score (toInsight tokens b)) ->
  sortedInsights raw tokens = List.map (toInsight tokens) raw.
Proof.
  unfold sortedInsights. induction raw as [|v raw IH]; intros H; [reflexivity|].
  cbn [List.map sort fold_right]. fold (sort by_score_desc (List.map (toInsight tokens) raw)).
  rewrite IH by (intros a b Ha Hb; apply H; now right).
  destruct raw as [|w raw]; [reflexivity|]. cbn [List.map insert].
  assert (by_score_desc (toInsight tokens v) (toInsight tokens w) = false) as ->;
    [|reflexivity].
  apply by_score_desc_order. rewrite (H v w); [lra | now left | right; now left].
Qed.

(** X14.  The slice keeps the best: the insight list has
    [min 12 n] entries for [n] candidates, and a candidate whose insight is
    not in the list scores no more than any insight that is. *)
Theorem rankInsights_keeps_top : forall combinedRaw fallbackTokens,
  List.length (rankInsights combinedRaw fallbackTokens)
  = Nat.min 12 (List.length combinedRaw) /\
  (forall v, In v combinedRaw ->
     ~ In (toInsight fallbackTokens v) (rankInsights combinedRaw fallbackTokens) ->
     forall i, In i (rankInsights combinedRaw fallbackTokens) ->
               (Insight.score i >= Insight.score (toInsight fallbackTokens v))%R).
Proof.
  intros raw tokens. split; [apply rankInsights_length_min|].
  intros v Hv Hout. rewrite rankInsights_slice in *.
  assert (In (toInsight tokens v) (sortedInsights raw tokens)) as Hin.
  { apply (Permutation_in _ (Permutation_sym (sortedInsights_perm raw tokens))).
    now apply in_map. }
  rewrite <- (firstn_skipn 12 (sortedInsights raw tokens)) in Hin.
  apply in_app_or in Hin as [Hin|Hin]; [contradiction|].
  intros i Hi. pose proof (sortedInsights_sorted raw tokens) as Hs.
  rewrite <- (firstn_skipn 12 (sortedInsights raw tokens)) in Hs.
  exact (StronglySorted_app_inv _ _ _ _ _ Hs Hi Hin).
Qed.

(** Thirteen candidates with the same score: the thirteenth is cut. *)
Lemma rankInsights_keeps_top_witness :
  List.length (rankInsights sample_candidates []) = 12 /\
  ~ In (toInsight [] (sample_video (Some "x13") "first" None None))
      (rankInsights sample_candidates []) /\
  (forall i,
     In i (rankInsights sample_candidates []) ->
     (Insight.score i
      >= Insight.score (toInsight [] (sample_video (Some "x13") "first" None None)))%R).
Proof.
  assert (rankInsights sample_candidates []
          = firstn 12 (List.map (toInsight []) sample_candidates)) as E.
  { rewrite rankInsights_slice, sortedInsights_ties; [reflexivity|].
    intros a b Ha Hb. unfold sample_candidates in Ha, Hb.
    apply in_map_iff in Ha as (ia & <- & _). apply in_map_iff in Hb as (ib & <- & _).
    reflexivity. }
  assert (~ In (toInsight [] (sample_video (Some "x13") "first" None None))
            (rankInsights sample_candidates [])) as Hcut.
  { rewrite E. intros H. apply (in_map Insight.id) in H.
    cbn in H. intuition discriminate. }
  split; [exact (proj1 (rankInsights_keeps_top sample_candidates []))|].
  split; [exact Hcut|].
  apply (proj2 (rankInsights_keeps_top sample_candidates [])); [|exact Hcut].
  unfold sample_candidates. cbn [List.map In]. tauto.
Defined.

Lemma score_is_spec k e : score_is k e = true <-> Insight.score e = k.
Proof.
  unfold score_is. destruct (Req_dec_T (Insight.score e) k); split;
    congruence.
Qed.

(** X15.  Ties keep their order: of two insights with the same score, the
    one that stands first in the list comes from the candidate that stood
    first among the deduplicated candidates. *)
Theorem rankInsights_stable : forall combinedRaw fallbackTokens a b,
  precedes a b (rankInsights combinedRaw fallbackTokens) ->
  Insight.score a = Insight.score b ->
  precedes a b (List.map (toInsight fallbackTokens) combinedRaw).
Proof.
  intros raw tokens a b Hp Hs. rewrite rankInsights_slice in Hp.
  apply precedes_firstn in Hp.
  apply (filter_precedes (score_is (Insight.score a))) in Hp;
    [|now apply score_is_spec | apply score_is_spec; congruence].
  unfold sortedInsights in Hp. rewrite sort_stable in Hp.
  - now apply precedes_filter in Hp.
  - intros x y Hx Hy. apply score_is_spec in Hx, Hy.
    apply by_score_desc_order. lra.
Qed.

Lemma rankInsights_stable_witness :
  precedes
    (toInsight [] (sample_video (Some "x1") "first" None None))
    (toInsight [] (sample_video (Some "x2") "first" None None))
    (List.map (toInsight [])
       [sample_video (Some "x1") "first" None None;
        sample_video (Some "x2") "first" None None]).
Proof.
  apply rankInsights_stable; [|reflexivity].
  exists [], [], []. cbn [app].
  unfold rankInsights. cbn [List.map sort fold_right insert].
  unfold by_score_desc at 1.
  destruct (Rlt_dec _ _) as [Hlt|_]; [|reflexivity].
  exfalso. revert Hlt.
  match goal with
  | |- (0 < ?x - ?y)%R -> _ => replace x with y by reflexivity
  end.
  lra.
Defined.

(** ** Outline *)

(** X16.  The titles of the outline segments are pairwise distinct for
    every topic and theme list (the page uses them as list keys). *)
Theorem buildOutline_titles_distinct : forall topic themes,
  NoDup (List.map Segment.title (buildOutline topic themes)).
Proof.
  intros topic themes. unfold buildOutline.
  destruct themes as [|a [|b [|c rest]]];
    cbn [firstn forEach_push app List.map Segment.title hookSegment
           breakdownSegment ctaSegment];
    repeat constructor; simpl; intuition discriminate.
Qed.

(** ** Highlights and view counts *)

Lemma fold_push_filter {A} (inc : A -> bool) (f : A -> string) l : forall acc,
  fold_left (fun hs k => if inc k then hs ++ [f k] else hs) l acc
  = acc ++ List.map f (filter inc l).
Proof.
  induction l as [|x l IH]; intros acc; simpl.
  - now rewrite app_nil_r.
  - rewrite IH. destruct (inc x); simpl; [now rewrite <- app_assoc | reflexivity].
Qed.

(** X17.  [buildHighlights] returns, in this order: one "Focus on <k>" for
    each of the first five keywords that occurs in the lower-cased title, in
    keyword order; one view label unless the view count is missing or 0;
    one "Published <ago>" unless the age is missing or empty.  So there are
    never more than 7 highlights, and later keywords are never shown. *)
Theorem buildHighlights_shape : forall toFixed1 toLocaleString video keywords,
  buildHighlights toFixed1 toLocaleString video keywords
  = List.map (fun k => ("Focus on " ++ k)%string)
      (filter (fun k => Js.includes (Js.toLowerCase (Video.title video)) k)
         (firstn 5 keywords))
    ++ match Video.views video with
       | Some 0%N | None => []
       | Some views => [viewLabel toFixed1 toLocaleString views]
       end
    ++ match Video.ago video with
       | Some EmptyString | None => []
       | Some ago => [("Published " ++ ago)%string]
       end /\
  List.length (buildHighlights toFixed1 toLocaleString video keywords) <= 7.
Proof.
  intros toFixed1 toLocaleString video keywords.
  assert (buildHighlights toFixed1 toLocaleString video keywords
          = List.map (fun k => ("Focus on " ++ k)%string)
              (filter (fun k => Js.includes (Js.toLowerCase (Video.title video)) k)
                 (firstn 5 keywords))
            ++ match Video.views video with
               | Some 0%N | None => []
               | Some views => [viewLabel toFixed1 toLocaleString views]
               end
            ++ match Video.ago video with
               | Some EmptyString | None => []
               | Some ago => [("Published " ++ ago)%string]
               end) as E.
  { unfold buildHighlights. rewrite fold_push_filter. cbn [app].
    destruct (Video.views video) as [[|p]|], (Video.ago video) as [[|c a]|];
      cbn [N.eqb Js.truthy]; rewrite <- ?app_assoc, ?app_nil_r; reflexivity. }
  split; [exact E|]. rewrite E, !length_app, length_map.
  pose proof (filter_length_le
                (fun k => Js.includes (Js.toLowerCase (Video.title video)) k)
                (firstn 5 keywords)) as H1.
  pose proof (firstn_le_length 5 keywords) as H2.
  destruct (Video.views video) as [[|p]|], (Video.ago video) as [[|c a]|];
    cbn [List.length]; clear - H1 H2; lia.
Qed.

(** X18.  [formatViews] rounds counts from 1000 up to 999999 to the nearest
    thousand, halves upwards, and shows them with the suffix "k"; hence
    every count from 999500 to 999999 is shown as "1000k". *)
Theorem formatViews_thousands : forall toFixed1 toLocaleString views,
  (1000 <= views < 1000000)%N ->
  (exists k,
     formatViews toFixed1 toLocaleString views = (show_N k ++ "k")%string /\
     (1 <= k <= 1000)%N /\ (1000 * k <= views + 500 < 1000 * k + 1000)%N) /\
  ((999500 <= views)%N ->
   formatViews toFixed1 toLocaleString views = "1000k").
Proof.
  intros toFixed1 toLocaleString views [Hlo Hhi]. unfold formatViews.
  destruct (1000000 <=? views)%N eqn:E1; [apply N.leb_le in E1; exfalso; lia|].
  destruct (1000 <=? views)%N eqn:E2; [|apply N.leb_gt in E2; exfalso; lia].
  split.
  - exists ((views + 500) / 1000)%N. split; [reflexivity|].
    pose proof (N.div_mod (views + 500) 1000 ltac:(discriminate)) as Hdm.
    pose proof (N.mod_lt (views + 500) 1000 ltac:(discriminate)) as Hm.
    clear - Hlo Hhi Hdm Hm.
    set (k := ((views + 500) / 1000)%N) in *.
    set (r := ((views + 500) mod 1000)%N) in *. clearbody k r.
    split; [split|]; lia.
  - intros H. replace ((views + 500) / 1000)%N with 1000%N; [reflexivity|].
    clear - Hhi H.
    apply N.div_unique with (r := (views + 500 - 1000000)%N); lia.
Qed.

Lemma formatViews_thousands_witness :
  formatViews (fun _ => "") (fun _ => "") 999999 = "1000k".
Proof.
  refine (proj2 (formatViews_thousands (fun _ => "") (fun _ => "") 999999 _) _);
    [split|]; (discriminate || reflexivity).
Defined.

(** A video with a view count other than 0 has its view label among the
    highlights. *)
Lemma buildHighlights_viewLabel toFixed1 toLocaleString video keywords views :
  Video.views video = Some views -> views <> 0%N ->
  In (viewLabel toFixed1 toLocaleString views)
    (buildHighlights toFixed1 toLocaleString video keywords).
Proof.
  intros Hv Hne. unfold buildHighlights. rewrite Hv.
  destruct (views =? 0)%N eqn:E; [apply N.eqb_eq in E; contradiction|].
  destruct (Video.ago video) as [ago|]; [destruct (Js.truthy ago)|];
    repeat (apply in_or_app; try (right; now left); left);
    apply in_or_app; right; now left.
Qed.

(** X19.  For a count between 10001 and 999999, or above 1000000, the view
    label that [buildHighlights] emits is the page's [formatViews] text
    followed by " views".  A count of exactly 1000000 is labelled
    "1000k views" by the route, while the page shows it in millions. *)
Theorem viewLabel_agrees : forall toFixed1 toLocaleString views,
  ((10000 < views < 1000000)%N \/ (1000000 < views)%N ->
   viewLabel toFixed1 toLocaleString views
   = (formatViews toFixed1 toLocaleString views ++ " views")%string /\
   forall video keywords,
     Video.views video = Some views ->
     In (formatViews toFixed1 toLocaleString views ++ " views")%string
       (buildHighlights toFixed1 toLocaleString video keywords)) /\
  viewLabel toFixed1 toLocaleString 1000000 = "1000k views" /\
  formatViews toFixed1 toLocaleString 1000000 = (toFixed1 1000000%N ++ "M")%string.
Proof.
  intros toFixed1 toLocaleString views. split; [|split; reflexivity].
  intros H.
  assert (viewLabel toFixed1 toLocaleString views
          = (formatViews toFixed1 toLocaleString views ++ " views")%string) as E.
  { unfold viewLabel, formatViews.
    destruct (1000000 <? views)%N eqn:E1, (1000000 <=? views)%N eqn:E2,
      (10000 <? views)%N eqn:E3, (1000 <=? views)%N eqn:E4;
      rewrite ?N.ltb_lt, ?N.ltb_ge, ?N.leb_le, ?N.leb_gt in *;
      try (exfalso; lia); now rewrite ?string_app_assoc. }
  split; [exact E|]. intros video keywords Hv. rewrite <- E.
  apply buildHighlights_viewLabel; [exact Hv | lia].
Qed.

Lemma viewLabel_agrees_witness :
  viewLabel (fun _ => "2.0") (fun _ => "") 2000000
  = (formatViews (fun _ => "2.0") (fun _ => "") 2000000 ++ " views")%string /\
  In (formatViews (fun _ => "2.0") (fun _ => "") 2000000 ++ " views")%string
    (buildHighlights (fun _ => "2.0") (fun _ => "")
       (sample_video (Some "x1") "first" (Some 2000000%N) None) []).
Proof.
  destruct (proj1 (viewLabel_agrees (fun _ => "2.0") (fun _ => "") 2000000))
    as [E H]; [right; reflexivity|].
  split; [exact E|]. apply H. reflexivity.
Defined.

(** ** SEO tags *)

Lemma first_seen_fold l : first_seen l = fold_left add_key l [].
Proof. rewrite fold_add_key. simpl. now rewrite filter_true. Qed.

Lemma mem_first_seen w l : mem w (first_seen l) = mem w l.
Proof.
  destruct (mem w (first_seen l)) eqn:E1, (mem w l) eqn:E2; auto.
  - apply (proj1 (mem_In _ _)), (proj1 (first_seen_In _ _)),
      (proj2 (mem_In _ _)) in E1. congruence.
  - apply (proj1 (mem_In _ _)), (proj2 (first_seen_In _ _)),
      (proj2 (mem_In _ _)) in E2. congruence.
Qed.

Lemma first_seen_app a b :
  first_seen (a ++ b)
  = first_seen a ++ filter (fun w => negb (mem w a)) (first_seen b).
Proof.
  rewrite (first_seen_fold (a ++ b)), fold_left_app, <- first_seen_fold.
  rewrite fold_add_key. f_equal. apply filter_ext. intros w.
  now rewrite mem_first_seen.
Qed.

Lemma filter_not_mem_app p q :
  NoDup (p ++ q) -> filter (fun w => negb (mem w p)) (p ++ q) = q.
Proof.
  intros Hnd. rewrite filter_app.
  assert (filter (fun w => negb (mem w p)) p = []) as ->.
  { clear. assert (forall l, incl l p -> filter (fun w => negb (mem w p)) l = []) as H.
    { induction l as [|x l IH]; simpl; intros Hl; [reflexivity|].
      rewrite (proj2 (mem_In x p)) by (apply Hl; now left). simpl.
      apply IH. intros y Hy. apply Hl. now right. }
    apply H, incl_refl. }
  simpl. apply forallb_filter_id, forallb_forall. intros w Hw.
  apply negb_true_iff. destruct (mem w p) eqn:E; [|reflexivity].
  apply mem_In in E. exfalso. revert E Hw. clear - Hnd.
  induction p as [|x p IH]; simpl; [tauto|].
  inversion Hnd as [|? ? Hx Hnd']; subst. intros [->|E] Hw.
  - apply Hx, in_or_app. now right.
  - now apply IH.
Qed.

Lemma buildSeo_tags_prefix n kws :
  NoDup kws -> List.length kws <= 12 -> buildSeo_tags (firstn n kws) kws = kws.
Proof.
  intros Hnd Hlen. unfold buildSeo_tags.
  rewrite first_seen_app, (first_seen_NoDup_id kws Hnd).
  rewrite (first_seen_NoDup_id _ (firstn_NoDup n kws Hnd)).
  rewrite <- (firstn_skipn n kws) at 2.
  rewrite filter_not_mem_app by (now rewrite firstn_skipn).
  rewrite firstn_skipn. now apply firstn_all2.
Qed.

(** X20.  The SEO tags are pairwise distinct, at most 12, and each is a
    theme or a keyword; when the themes are distinct and at most 12 they
    come first, in their order; and when themes and keywords hold at most 12
    distinct strings, every one of them is a tag. *)
Theorem buildSeo_tags_spec : forall themes keywords,
  NoDup (buildSeo_tags themes keywords) /\
  List.length (buildSeo_tags themes keywords) <= 12 /\
  (forall w, In w (buildSeo_tags themes keywords) -> In w themes \/ In w keywords) /\
  (NoDup themes -> List.length themes <= 12 ->
   exists rest, buildSeo_tags themes keywords = themes ++ rest) /\
  (List.length (first_seen (themes ++ keywords)) <= 12 ->
   forall w, In w themes \/ In w keywords -> In w (buildSeo_tags themes keywords)).
Proof.
  intros themes keywords. unfold buildSeo_tags.
  split; [apply firstn_NoDup, first_seen_NoDup|].
  split; [apply firstn_le_length|].
  split; [|split].
  - intros w Hw. apply in_firstn in Hw.
    apply (proj1 (first_seen_In _ _)) in Hw. now apply in_app_or.
  - intros Hnd Hlen. rewrite first_seen_app, (first_seen_NoDup_id _ Hnd).
    rewrite firstn_app.
    rewrite (firstn_all2 themes) by exact Hlen. eauto.
  - intros Hlen w Hw. rewrite firstn_all2 by exact Hlen.
    apply first_seen_In. now apply in_or_app.
Qed.

Lemma buildSeo_tags_spec_witness :
  exists rest,
    buildSeo_tags ["tools"; "robots"] ["robots"; "small"] = ["tools"; "robots"] ++ rest.
Proof.
  apply (proj1 (proj2 (proj2 (proj2
           (buildSeo_tags_spec ["tools"; "robots"] ["robots"; "small"]))))).
  - repeat constructor; simpl; intuition discriminate.
  - simpl. lia.
Defined.

(** X21.  As the handler calls it, with the first five aggregated keywords
    as themes and all of them as keywords, [buildSeo] returns exactly the
    aggregated keywords as tags, and its description lists the themes. *)
Theorem buildSeo_tags_in_handler : forall texts topic,
  let themeKeywords := aggregateKeywords texts in
  let themes := firstn 5 themeKeywords in
  buildSeo_tags themes themeKeywords = themeKeywords /\
  buildSeo_description topic themes themeKeywords
  = ("I analyzed the most successful " ++ topic
     ++ " videos this week to decode what actually works. Expect deep dives into "
     ++ String.concat ", " themes
     ++ ", plus a step-by-step plan you can copy for your next upload.")%string.
Proof.
  intros texts topic kws themes. subst kws themes.
  assert (buildSeo_tags (firstn 5 (aggregateKeywords texts)) (aggregateKeywords texts)
          = aggregateKeywords texts) as E.
  { apply buildSeo_tags_prefix; [apply aggregateKeywords_NoDup|].
    rewrite aggregateKeywords_length. lia. }
  split; [exact E|]. unfold buildSeo_description. now rewrite E.
Qed.

(** ** Action items *)

Lemma references_nonempty insights :
  insights <> [] ->
  exists r,
    String.concat " " (List.map reference_line (firstn 3 insights))
    = String "W" r.
Proof.
  destruct insights as [|a [|b rest]]; [contradiction | |]; intros _.
  - simpl. unfold reference_line. simpl. eauto.
  - change (firstn 3 (a :: b :: rest)) with (a :: firstn 2 (b :: rest)).
    change (firstn 2 (b :: rest)) with (b :: firstn 1 rest).
    cbn [List.map String.concat]. unfold reference_line at 1. simpl. eauto.
Qed.

(** X22.  [buildActionItems] always returns three items.  Without insights
    the third one is the generic "Save at least two reference videos"
    instruction; with at least one insight it is the "Watch ..." line of the
    first up to three insights, and never the generic instruction.  In a
    successful response the insights are never empty, so the handler never
    emits the generic instruction. *)
Theorem buildActionItems_references :
  (forall topic themes insights,
     List.length (buildActionItems topic themes insights) = 3) /\
  (forall topic themes,
     nth 2 (buildActionItems topic themes []) "" = references_fallback) /\
  (forall topic themes insights,
     insights <> [] ->
     nth 2 (buildActionItems topic themes insights) ""
     = String.concat " " (List.map reference_line (firstn 3 insights)) /\
     nth 2 (buildActionItems topic themes insights) "" <> references_fallback) /\
  (forall yts body doc,
     snd (POST yts body) = Json doc ->
     nth 2 (buildActionItems (Document.query doc) (Document.keyThemes doc)
              (Document.inspiration doc)) ""
     <> references_fallback).
Proof.
  assert (forall topic themes insights,
            insights <> [] ->
            nth 2 (buildActionItems topic themes insights) ""
            = String.concat " " (List.map reference_line (firstn 3 insights)) /\
            nth 2 (buildActionItems topic themes insights) "" <> references_fallback)
    as Hsome.
  { intros topic themes insights Hne. unfold buildActionItems. cbn [nth].
    destruct (references_nonempty insights Hne) as [r ->]. cbn [Js.truthy].
    split; [reflexivity | discriminate]. }
  split; [reflexivity|]. split; [reflexivity|]. split; [exact Hsome|].
  intros yts body doc H. apply Hsome.
  apply POST_json_shape in H
    as (t & raw & tokens & _ & _ & Hne & _ & _ & -> & _).
  intros E. apply (f_equal (@List.length _)) in E.
  rewrite rankInsights_length_min in E.
  destruct raw; [contradiction | discriminate].
Qed.

Lemma buildActionItems_references_witness :
  nth 2 (buildActionItems "robots" ["tools"]
           [toInsight [] (sample_video (Some "x1") "first" None None)]) ""
  <> references_fallback.
Proof.
  apply (proj1 (proj2 (proj2 buildActionItems_references))).
  discriminate.
Defined.

(** ** The form's guard *)

Lemma POST_accepts yts body t :
  Request.topic body = Some t -> Js.trim t <> "" ->
  fst (POST yts body)
  = [Js.trim t; (Js.trim t ++ " trending")%string; ("best " ++ Js.trim t)%string] /\
  forall msg, snd (POST yts body) <> JsonError 400 msg.
Proof.
  intros Ht Hne. unfold POST, fetchVideoSet, bind, ret.
  rewrite Ht. cbn [option_map].
  rewrite (proj2 (truthy_nonempty _) Hne). cbn [negb fst snd].
  split; [reflexivity|]. intros msg.
  destruct (yts (Js.trim t)) as [p|], (yts (Js.trim t ++ " trending")%string) as [tr|],
    (yts ("best " ++ Js.trim t)%string) as [b|]; try discriminate.
  destruct (List.length (dedupeVideos (p ++ tr ++ b)) =? 0)%nat; discriminate.
Qed.

(** X23.  Whatever the page's submit guard lets through (not loading, and a
    topic of at least 3 characters once trimmed) passes the handler's topic
    check: the three searches are sent and the answer is never 400.  While
    loading, or with a shorter topic, the button is disabled. *)
Theorem submit_guard_passes_topic_check : forall loading topic,
  (submitDisabled loading topic = false ->
   forall yts body,
     Request.topic body = Some topic ->
     List.length (fst (POST yts body)) = 3 /\
     forall msg, snd (POST yts body) <> JsonError 400 msg) /\
  (loading = true \/ String.length (Js.trim topic) < 3 ->
   submitDisabled loading topic = true).
Proof.
  intros loading topic. unfold submitDisabled. split.
  - intros H yts body Ht. apply orb_false_iff in H as [_ H].
    apply Nat.ltb_ge in H.
    assert (Js.trim topic <> "") as Hne.
    { intros E. rewrite E in H. simpl in H. clear - H. lia. }
    destruct (POST_accepts yts body topic Ht Hne) as [-> Hmsg].
    split; [reflexivity | exact Hmsg].
  - intros [->|H]; [reflexivity|].
    apply Nat.ltb_lt in H. rewrite H. apply orb_true_r.
Qed.

Lemma submit_guard_passes_topic_check_witness :
  List.length (fst (POST (fun _ => None) (sample_request (Some "  robots ")))) = 3.
Proof.
  apply (proj1 (submit_guard_passes_topic_check false "  robots ") eq_refl
           (fun _ => None) (sample_request (Some "  robots ")) eq_refl).
Defined.

(** ** Relevance and the scoring keywords *)

Lemma filter_length_all {A} (p : A -> bool) l :
  List.length (filter p l) = List.length l <-> forallb p l = true.
Proof.
  induction l as [|x l IH]; simpl; [tauto|].
  pose proof (filter_length_le p l) as Hle.
  destruct (p x); simpl.
  - rewrite <- IH. split; intros H; lia.
  - split; [intros H; exfalso; lia | discriminate].
Qed.

Lemma filter_length_none {A} (p : A -> bool) l :
  List.length (filter p l) = 0 <-> forallb (fun x => negb (p x)) l = true.
Proof.
  induction l as [|x l IH]; simpl; [tauto|].
  destruct (p x); simpl; [split; discriminate | exact IH].
Qed.

(** X24.  For a non-empty keyword list the relevance is 1 exactly when
    every keyword occurs in the lower-cased title and description, and 0
    exactly when none does. *)
Theorem relevance_extremes : forall video keywords,
  keywords <> [] ->
  (Score.relevance (scoreVideo video keywords) = 1%R <->
   forallb (fun k => Js.includes (video_text video) k) keywords = true) /\
  (Score.relevance (scoreVideo video keywords) = 0%R <->
   forallb (fun k => negb (Js.includes (video_text video) k)) keywords = true).
Proof.
  intros video keywords Hne. unfold scoreVideo. cbn [Score.relevance].
  rewrite (relevance_of_nonempty video keywords Hne).
  set (p := fun k => Js.includes (video_text video) k).
  rewrite <- (filter_length_all p), <- (filter_length_none p).
  assert (0 < INR (List.length keywords))%R as Hpos.
  { apply lt_0_INR. destruct keywords; [contradiction | simpl; lia]. }
  set (a := List.length (filter p keywords)). set (b := List.length keywords) in *.
  split; split; intros H.
  - apply INR_eq. apply (Rmult_eq_compat_r (INR b)) in H.
    unfold Rdiv in H. rewrite Rmult_assoc, Rinv_l, Rmult_1_r, Rmult_1_l in H; lra.
  - rewrite H. now apply Rinv_r, Rgt_not_eq.
  - apply (Rmult_eq_compat_r (INR b)) in H.
    unfold Rdiv in H. rewrite Rmult_assoc, Rinv_l, Rmult_1_r, Rmult_0_l in H by lra.
    now apply (INR_eq a 0).
  - rewrite H. simpl. unfold Rdiv. now rewrite Rmult_0_l.
Qed.

Lemma relevance_extremes_witness :
  Score.relevance
    (scoreVideo (sample_video (Some "x1") "Robot Tools" None None) ["robot"; "tools"])
  = 1%R.
Proof.
  apply (proj1 (relevance_extremes
                  (sample_video (Some "x1") "Robot Tools" None None)
                  ["robot"; "tools"] ltac:(discriminate))).
  reflexivity.
Defined.

Lemma fallbackTokens_same topic description :
  (if (0 <? List.length (tokenize (topic ++ " " ++ description)%string))%nat
   then tokenize (topic ++ " " ++ description)%string
   else tokenize topic)
  = tokenize topic ++ tokenize description.
Proof.
  rewrite tokenize_app_space.
  destruct (tokenize topic ++ tokenize description) as [|w ws] eqn:E;
    [|reflexivity].
  simpl. now apply app_eq_nil in E as [-> _].
Qed.

(** X25.  The keywords every candidate is scored against are the tokens of
    the trimmed topic followed by the tokens of the description: the
    handler's fallback to the topic's own tokens never changes them.  When
    topic and description have no tokens, every insight has relevance
    0.3. *)
Theorem POST_scoring_keywords : forall yts body doc,
  snd (POST yts body) = Json doc ->
  exists t raw,
    Request.topic body = Some t /\
    Document.inspiration doc
    = rankInsights raw
        (tokenize (Js.trim t) ++ tokenize (or_else (Request.description body) "")) /\
    (tokenize (Js.trim t) = [] ->
     tokenize (or_else (Request.description body) "") = [] ->
     Forall (fun i => Insight.relevance i = 0.3%R) (Document.inspiration doc)).
Proof.
  intros yts body doc. unfold POST, fetchVideoSet, bind, ret.
  destruct (Request.topic body) as [t|]; cbn [option_map]; [|discriminate].
  destruct (Js.truthy (Js.trim t)) eqn:Et; cbn [negb snd]; [|discriminate].
  destruct (yts (Js.trim t)) as [p|], (yts (Js.trim t ++ " trending")%string) as [tr|],
    (yts ("best " ++ Js.trim t)%string) as [b|]; try discriminate.
  destruct (List.length (dedupeVideos (p ++ tr ++ b)) =? 0)%nat; [discriminate|].
  rewrite fallbackTokens_same.
  intros E. injection E as <-. cbn [Document.inspiration].
  exists t, (dedupeVideos (p ++ tr ++ b)). split; [reflexivity|].
  split; [reflexivity|].
  intros -> ->. apply Forall_forall. intros i Hi.
  apply rankInsights_from in Hi as (v & _ & ->). reflexivity.
Qed.

Lemma POST_scoring_keywords_witness :
  exists doc,
    snd (POST (fun _ => Some [sample_video (Some "x1") "first" None None])
           (sample_request (Some "AI"))) = Json doc /\
    Forall (fun i => Insight.relevance i = 0.3%R) (Document.inspiration doc).
Proof.
  assert (exists doc,
            snd (POST (fun _ => Some [sample_video (Some "x1") "first" None None])
                   (sample_request (Some "AI"))) = Json doc) as [doc E]
    by (eexists; reflexivity).
  exists doc. split; [exact E|].
  destruct (POST_scoring_keywords _ _ _ E) as (t & raw & Ht & _ & H).
  injection Ht as <-. apply H; reflexivity.
Defined.
